(** * TidyTree: layout transforms and incremental redraw

    A shallow embedding of [src/main.js] (the TidyTree widget) and the
    properties of its normaliser, its coordinate and path generators, its
    data joins and its event registry.

    Conventions of the embedding.
    - A JavaScript number of the engine (branch lengths, cumulative
      distances, pixel sizes) is an exact rational extended with the three
      non-finite values ([num]); rounding is not modelled, and there is no
      negative zero.
    - Angles and radii handed to the path and transform generators are real
      numbers, since those generators use [Math.PI], [Math.cos] and
      [Math.sin].
    - A string built by concatenating literals and numbers is kept as the
      list of its pieces ([piece]), numbers unformatted; [render] turns it
      into text once a number printer is given.
    - A method of [TidyTree] is a function from the object before the call
      to the object after it and the outcome, a returned value or a thrown
      error ([M]). *)

From Stdlib Require Import Ascii String QArith Qminmax Reals Lra Lia.
From stdpp Require Import base strings list gmap.

Local Open Scope Q_scope.

(** ** Numbers *)

Module JSNum.

Inductive num : Type :=
| Fin (q : Q)
| PInf
| NInf
| NaN.

(** [Number.MAX_SAFE_INTEGER] and [Number.MIN_SAFE_INTEGER]. *)
Definition MAX_SAFE_INTEGER : Q := 9007199254740991.
Definition MIN_SAFE_INTEGER : Q := - 9007199254740991.

Definition Qeqb0 (q : Q) : bool := Qeq_bool q 0.
Definition Qltb (a b : Q) : bool := negb (Qle_bool b a).

(** [a + b] *)
Definition nadd (a b : num) : num :=
  match a, b with
  | NaN, _ | _, NaN => NaN
  | Fin x, Fin y => Fin (x + y)
  | PInf, NInf | NInf, PInf => NaN
  | PInf, _ | _, PInf => PInf
  | NInf, _ | _, NInf => NInf
  end.

(** The sign of a number that is not NaN: [Lt], [Eq] or [Gt] against 0. *)
Definition sign (a : num) : comparison :=
  match a with
  | Fin x => x ?= 0
  | PInf => Gt
  | NInf => Lt
  | NaN => Eq
  end.

(** [a * b] *)
Definition nmul (a b : num) : num :=
  match a, b with
  | NaN, _ | _, NaN => NaN
  | Fin x, Fin y => Fin (x * y)
  | _, _ =>
      match sign a, sign b with
      | Eq, _ | _, Eq => NaN
      | Gt, Gt | Lt, Lt => PInf
      | _, _ => NInf
      end
  end.

(** [a / b]; a zero divisor is the positive zero. *)
Definition ndiv (a b : num) : num :=
  match a, b with
  | NaN, _ | _, NaN => NaN
  | Fin x, Fin y =>
      if Qeqb0 y then
        match x ?= 0 with
        | Eq => NaN
        | Gt => PInf
        | Lt => NInf
        end
      else Fin (x / y)
  | Fin _, _ => Fin 0
  | _, Fin y =>
      match sign a, (if Qltb y 0 then Lt else Gt) with
      | Gt, Gt | Lt, Lt => PInf
      | _, _ => NInf
      end
  | _, _ => NaN
  end.

(** [a < b]; every comparison with NaN is false. *)
Definition nlt (a b : num) : bool :=
  match a, b with
  | NaN, _ | _, NaN => false
  | Fin x, Fin y => Qltb x y
  | NInf, NInf | PInf, _ | _, NInf => false
  | _, _ => true
  end.

(** [a > b] *)
Definition ngt (a b : num) : bool := nlt b a.

(** [a === b] *)
Definition neq (a b : num) : bool :=
  match a, b with
  | Fin x, Fin y => Qeq_bool x y
  | PInf, PInf | NInf, NInf => true
  | _, _ => false
  end.

(** [a <= b] *)
Definition nle (a b : num) : bool := nlt a b || neq a b.

(** [isFinite(a)] *)
Definition finite (a : num) : bool :=
  match a with Fin _ => true | _ => false end.

(** The number [a] is the rational [q]. *)
Definition is_rat (a : num) (q : Q) : Prop :=
  match a with Fin x => x == q | _ => False end.

End JSNum.

Import JSNum.

(** ** The parsed tree and its hierarchy *)

#[local] Unset Elimination Schemes.

(** A [patristic.Branch] as [setData] reads it: its [id], its [length]
    ([None] when the field is undefined) and its [children]. *)
Inductive Branch : Type :=
| mkBranch (id : string) (length : option Q) (children : list Branch).

Definition branch_id (b : Branch) : string :=
  match b with mkBranch i _ _ => i end.
Definition branch_length (b : Branch) : option Q :=
  match b with mkBranch _ l _ => l end.
Definition branch_children (b : Branch) : list Branch :=
  match b with mkBranch _ _ cs => cs end.

(** A node of [d3.hierarchy(data, d => d.children)]: the [data] fields it
    wraps, the cached [value] and [weight] ([weight] is undefined until the
    first redraw) and its [children]. *)
Inductive HNode : Type :=
| mkHNode (id : string) (length : option Q) (value : num)
          (weight : option num) (children : list HNode).

#[local] Set Elimination Schemes.

Definition data_id (d : HNode) : string :=
  match d with mkHNode i _ _ _ _ => i end.
Definition value (d : HNode) : num :=
  match d with mkHNode _ _ v _ _ => v end.
Definition weight (d : HNode) : option num :=
  match d with mkHNode _ _ _ w _ => w end.
Definition children (d : HNode) : list HNode :=
  match d with mkHNode _ _ _ _ cs => cs end.

(** Modelled from the spec: d3-hierarchy is not part of the sources.
    [hierarchy.each(f)] calls [f] once on every node; for a callback that
    rewrites fields of the node it is given and reads no other node, as
    those of lines 61 and 298 do, the order of the calls is immaterial. *)
Fixpoint each (f : HNode -> HNode) (d : HNode) : HNode :=
  match f d with
  | mkHNode i l v w _ => mkHNode i l v w (List.map (each f) (children d))
  end.

(** All nodes of a hierarchy, the node itself first. *)
Fixpoint nodes (d : HNode) : list HNode :=
  d :: flat_map nodes (children d).

(** ** Normaliser: [setData], lines 52-61 *)

(** [d.data.length ? d.data.length : 0] *)
Definition length_or_0 (l : option Q) : Q :=
  match l with
  | Some q => if Qeqb0 q then 0 else q
  | None => 0
  end.

(** The body of the [eachBefore] callback at a node with the given parent
    value ([None] at the root): the node's new [value] and the updated
    [range]. *)
Definition visit (parent_value : option num) (l : option Q)
    (range : num * num) : num * (num * num) :=
  let v := nadd (match parent_value with Some pv => pv | None => Fin 0 end)
                (Fin (length_or_0 l)) in
  let r0 := if nlt v (fst range) then v else fst range in
  let r1 := if ngt v (snd range) then v else snd range in
  (v, (r0, r1)).

(** [d3.hierarchy(data, d => d.children).eachBefore(...)], lines 53-60:
    the hierarchy is built and visited parent first, children in order
    (section 4.1), each visit running [visit] and threading [range]. *)
Fixpoint eachBefore (parent_value : option num) (b : Branch)
    (range : num * num) : HNode * (num * num) :=
  match b with
  | mkBranch i l cs =>
      let '(v, range1) := visit parent_value l range in
      let '(ds, range2) :=
        (fix go (cs : list Branch) (range : num * num) :=
           match cs with
           | [] => ([], range)
           | c :: cs' =>
               let '(d, range') := eachBefore (Some v) c range in
               let '(ds, range'') := go cs' range' in
               (d :: ds, range'')
           end) cs range1 in
      (mkHNode i l v None ds, range2)
  end.

(** The children loop of [eachBefore], named. *)
Definition eachBefore_children (v : num)
    : list Branch -> num * num -> list HNode * (num * num) :=
  fix go (cs : list Branch) (range : num * num) :=
    match cs with
    | [] => ([], range)
    | c :: cs' =>
        let '(d, range') := eachBefore (Some v) c range in
        let '(ds, range'') := go cs' range' in
        (d :: ds, range'')
    end.

(** [.each(d => d.value /= this.range[1])] *)
Definition normalize (range1 : num) (d : HNode) : HNode :=
  match d with
  | mkHNode i l v w cs => mkHNode i l (ndiv v range1) w cs
  end.

(** Lines 52-61: the new [range] and [hierarchy] for [data]. *)
Definition buildHierarchy (data : Branch) : (num * num) * HNode :=
  let range := (Fin MAX_SAFE_INTEGER, Fin MIN_SAFE_INTEGER) in
  let '(h, range') := eachBefore None data range in
  (range', each (normalize (snd range')) h).

(** ** Traversal orders of the hierarchy *)

(** Level-wise concatenation of two breadth-first layerings. *)
Fixpoint merge_levels {A : Type} (a b : list (list A)) : list (list A) :=
  match a, b with
  | [], _ => b
  | _, [] => a
  | l :: a', r :: b' => (l ++ r) :: merge_levels a' b'
  end.

(** Modelled from the spec: d3-hierarchy is not part of the sources. The
    nodes of a hierarchy level by level: [each], and [descendants] and
    [links] with it, go breadth first, siblings in order. *)
Fixpoint levels (d : HNode) : list (list HNode) :=
  [d] :: foldr merge_levels [] (List.map levels (children d)).

(** Modelled from the spec: [hierarchy.descendants()] of d3-hierarchy, the
    nodes in the order of [each]. *)
Definition descendants (d : HNode) : list HNode := concat (levels d).

(** A link of [hierarchy.links()]: [{source: node.parent, target: node}]. *)
Record Link : Type := mkLink { source : HNode; target : HNode }.

(** Modelled from the spec: the links of a hierarchy level by level, those
    of one parent together. *)
Fixpoint link_levels (d : HNode) : list (list Link) :=
  List.map (mkLink d) (children d)
    :: foldr merge_levels [] (List.map link_levels (children d)).

(** Modelled from the spec: [hierarchy.links()] of d3-hierarchy, one link
    per node other than the root, in the order of [each]. *)
Definition links (d : HNode) : list Link := concat (link_levels d).

(** ** The scene and its data joins *)

(** An element of the scene is known by a number given to it when it is
    created; a group of the scene lists its elements with the datum bound to
    each ([__data__]). *)
Abbreviation group D := (list (nat * D)).

(** The outcome of [selection.data(...)]: for every datum, in the order of
    the data, the element it updates ([Some]) or the fact that it enters
    ([None]); and the elements that exit, with their old datum. *)
Record Joined (D : Type) : Type := mkJoined {
  bound : list (option nat * D);
  exiting : group D
}.
Arguments mkJoined {D}.
Arguments bound {D}.
Arguments exiting {D}.

Section Join.
Context {D : Type}.

(** Modelled from the spec: the scene primitive of section 6
    (d3-selection) is not part of the sources. [selection.data(data)]
    without a key function binds by position, as d3 documents: the i-th
    datum goes to the i-th element; data past the last element enter,
    elements past the last datum exit. *)
Fixpoint bindIndex (g : group D) (data : list D) : Joined D :=
  match g, data with
  | (e, _) :: g', x :: data' =>
      let j := bindIndex g' data' in
      mkJoined ((Some e, x) :: bound j) (exiting j)
  | [], _ => mkJoined (List.map (pair None) data) []
  | _, [] => mkJoined [] g
  end.

Variable key : D -> string.

(** Modelled from the spec: the scene primitive of section 6
    (d3-selection) is not part of the sources. [selection.data(data, key)]
    joins by key (section 4.5), in three passes. First every element is
    filed under the key of its old datum; an element whose key is already
    on file is a duplicate, and exits. *)
Fixpoint fileElements (g : group D) (byKey : gmap string nat)
    : gmap string nat * list bool :=
  match g with
  | [] => (byKey, [])
  | (e, d) :: g' =>
      match byKey !! key d with
      | Some _ =>
          let '(m, dup) := fileElements g' byKey in (m, true :: dup)
      | None =>
          let '(m, dup) := fileElements g' (<[key d := e]> byKey) in
          (m, false :: dup)
      end
  end.

(** Modelled from the spec: second pass of the keyed join. Every datum
    takes the element filed under its key, which updates and is struck from
    the file, or enters when there is none. *)
Fixpoint bindData (data : list D) (byKey : gmap string nat)
    : list (option nat * D) * gmap string nat :=
  match data with
  | [] => ([], byKey)
  | x :: data' =>
      match byKey !! key x with
      | Some e =>
          let '(b, m) := bindData data' (delete (key x) byKey) in
          ((Some e, x) :: b, m)
      | None =>
          let '(b, m) := bindData data' byKey in
          ((None, x) :: b, m)
      end
  end.

(** Modelled from the spec: third pass of the keyed join. The elements
    still on file exit, with the duplicates. *)
Fixpoint leftOver (g : group D) (dup : list bool)
    (byKey : gmap string nat) : group D :=
  match g, dup with
  | (e, d) :: g', u :: dup' =>
      let rest := leftOver g' dup' byKey in
      if u || bool_decide (byKey !! key d = Some e)
      then (e, d) :: rest else rest
  | _, _ => []
  end.

(** Modelled from the spec: [selection.data(data, key)], the three passes
    in turn. *)
Definition bindKey (g : group D) (data : list D) : Joined D :=
  let '(byKey, dup) := fileElements g ∅ in
  let '(b, byKey') := bindData data byKey in
  mkJoined b (leftOver g dup byKey').

(** The data that enter and the pairs that update. *)
Definition entering (j : Joined D) : list D :=
  omap (fun p => match fst p with None => Some (snd p) | Some _ => None end)
       (bound j).
Definition updating (j : Joined D) : group D :=
  omap (fun p => match fst p with Some e => Some (e, snd p) | None => None end)
       (bound j).

(** Modelled from the spec: [selection.join(enter, update, exit)] with the
    callbacks of [redraw] (section 4.5). Entering data get new elements
    ([enter.append]), updated elements keep theirs, exiting elements are
    removed once their transition is over; the group is left in the order
    of the data. [fresh] is the next unused element number. *)
Fixpoint place (b : list (option nat * D)) (fresh : nat)
    : group D * nat :=
  match b with
  | [] => ([], fresh)
  | (Some e, x) :: b' =>
      let '(g, n) := place b' fresh in ((e, x) :: g, n)
  | (None, x) :: b' =>
      let '(g, n) := place b' (S fresh) in ((fresh, x) :: g, n)
  end.
End Join.

(** ** The TidyTree object *)

(** What the event handlers receive and return. *)
Inductive jsval : Type :=
| JNull
| JUndefined
| JNumber (n : num)
| JString (s : string).

(** A handler is called with the array of the arguments of [trigger]. *)
Abbreviation handler := (list jsval -> jsval).

(** The two groups [redraw] joins data to, and the next unused element
    number. *)
Record Scene : Type := mkScene {
  link_elements : group Link;
  node_elements : group HNode;
  fresh : nat
}.

(** The element the tree is drawn in ([this.parent] once [draw] has run):
    its pixel size as [parseFloat(parent.style(...))] reads it, and its
    scene. *)
Record Container : Type := mkContainer {
  style_width : Q;
  style_height : Q;
  scene : Scene
}.

(** [margin], an array in CSS order: [margin[0]] is the top margin,
    [margin[1]] the right, [margin[2]] the bottom and [margin[3]] the left
    one. *)
Record Margin : Type := mkMargin {
  margin_0 : Q;
  margin_1 : Q;
  margin_2 : Q;
  margin_3 : Q
}.

(** The fields of a [TidyTree] that the methods below read or write; the
    remaining options (visibility and size of nodes and labels, the ruler)
    play no part in them. *)
Record TidyTree : Type := mkTidyTree {
  layout : string;
  type : string;
  mode : string;
  animation : Q;
  margin : Margin;
  events : gmap string handler;
  parent : option Container;
  data : option Branch;
  range : option (num * num);
  hierarchy : option HNode;
  width : option Q;
  height : option Q;
  scalar : option Q
}.

Definition with_layout (v : string) (t : TidyTree) : TidyTree :=
  mkTidyTree v (type t) (mode t) (animation t) (margin t) (events t)
    (parent t) (data t) (range t) (hierarchy t) (width t) (height t)
    (scalar t).
Definition with_type (v : string) (t : TidyTree) : TidyTree :=
  mkTidyTree (layout t) v (mode t) (animation t) (margin t) (events t)
    (parent t) (data t) (range t) (hierarchy t) (width t) (height t)
    (scalar t).
Definition with_mode (v : string) (t : TidyTree) : TidyTree :=
  mkTidyTree (layout t) (type t) v (animation t) (margin t) (events t)
    (parent t) (data t) (range t) (hierarchy t) (width t) (height t)
    (scalar t).
Definition with_events (v : gmap string handler) (t : TidyTree) : TidyTree :=
  mkTidyTree (layout t) (type t) (mode t) (animation t) (margin t) v
    (parent t) (data t) (range t) (hierarchy t) (width t) (height t)
    (scalar t).
Definition with_data (d : Branch) (r : num * num) (h : HNode)
    (t : TidyTree) : TidyTree :=
  mkTidyTree (layout t) (type t) (mode t) (animation t) (margin t) (events t)
    (parent t) (Some d) (Some r) (Some h) (width t) (height t) (scalar t).
Definition with_sizes (w hg sc : Q) (t : TidyTree) : TidyTree :=
  mkTidyTree (layout t) (type t) (mode t) (animation t) (margin t) (events t)
    (parent t) (data t) (range t) (hierarchy t) (Some w) (Some hg) (Some sc).
Definition with_hierarchy (h : HNode) (t : TidyTree) : TidyTree :=
  mkTidyTree (layout t) (type t) (mode t) (animation t) (margin t) (events t)
    (parent t) (data t) (range t) (Some h) (width t) (height t) (scalar t).
Definition with_parent (c : Container) (t : TidyTree) : TidyTree :=
  mkTidyTree (layout t) (type t) (mode t) (animation t) (margin t) (events t)
    (Some c) (data t) (range t) (hierarchy t) (width t) (height t) (scalar t).

(** *** Methods: state and exceptions *)

Inductive outcome (A : Type) : Type :=
| Returned (a : A)
| Thrown (message : string).
Arguments Returned {A}.
Arguments Thrown {A}.

(** A method maps the object to the object it leaves behind and what the
    call produced. *)
Definition M (A : Type) : Type := TidyTree -> TidyTree * outcome A.

Definition ret {A : Type} (a : A) : M A := fun t => (t, Returned a).
Definition throw {A : Type} (message : string) : M A :=
  fun t => (t, Thrown message).
Definition bind {A B : Type} (m : M A) (k : A -> M B) : M B :=
  fun t =>
    match m t with
    | (t', Returned a) => k a t'
    | (t', Thrown e) => (t', Thrown e)
    end.
Definition this : M TidyTree := fun t => (t, Returned t).
Definition assign (f : TidyTree -> TidyTree) : M unit :=
  fun t => (f t, Returned tt).

Declare Scope method_scope.
Delimit Scope method_scope with method.
Notation "x <- m ;; k" := (bind m (fun x => k))
  (at level 100, m at next level, right associativity) : method_scope.
Notation "m ;; k" := (bind m (fun _ => k))
  (at level 100, right associativity) : method_scope.
Local Open Scope method_scope.

Definition raises {A : Type} (m : M A) (t : TidyTree) : Prop :=
  exists message, snd (m t) = Thrown message.

(** *** [redraw], lines 291-400 *)

(** [this.scalar], line 297. *)
Definition pixel_budget (layout : string) (width height : Q) : Q :=
  if String.eqb layout "horizontal" then width
  else if String.eqb layout "vertical" then height
  else Qmin width height / 2.

(** The callback of line 298: [d.weight = this.scalar * d.value]. *)
Definition set_weight (scalar : Q) (d : HNode) : HNode :=
  match d with
  | mkHNode i l v _ cs => mkHNode i l v (Some (nmul (Fin scalar) v)) cs
  end.

(** The links group is joined to [links()] without a key function (line
    307), the nodes group to [descendants()] under the key [d.data.id]
    (line 342). *)
Definition join_links (s : Scene) (h : HNode) : Joined Link :=
  bindIndex (link_elements s) (links h).
Definition join_nodes (s : Scene) (h : HNode) : Joined HNode :=
  bindKey data_id (node_elements s) (descendants h).

(** The scene after both joins, links first. *)
Definition rejoin (s : Scene) (h : HNode) : Scene :=
  let '(ls, n1) := place (bound (join_links s h)) (fresh s) in
  let '(ns, n2) := place (bound (join_nodes s h)) n1 in
  mkScene ls ns n2.

(** [redraw]: the sizes are recomputed (lines 294-297), then the weights
    (line 298), then the scene is joined to the positioned hierarchy (lines
    307-395). The attributes given to the elements are functions of the
    datum bound to each (module Geometry) and are not stored; the positions
    [x] and [y] come from [d3.tree] or [d3.cluster]. *)
Definition redraw : M unit :=
  t <- this ;;
  match parent t with
  | None =>
      throw "TypeError: Cannot read properties of undefined (reading 'style')"
  | Some c =>
      let w := style_width c - margin_0 (margin t) - margin_2 (margin t) in
      let hg := style_height c - margin_1 (margin t) - margin_3 (margin t) in
      let s := pixel_budget (layout t) w hg in
      assign (with_sizes w hg s) ;;
      match hierarchy t with
      | None =>
          throw "TypeError: Cannot read properties of undefined (reading 'each')"
      | Some h =>
          let h' := each (set_weight s) h in
          assign (with_hierarchy h') ;;
          assign (with_parent
                    (mkContainer (style_width c) (style_height c)
                       (rejoin (scene c) h')))
      end
  end.

(** *** [setData], lines 49-64 *)

(** [data] is [None] for a falsy argument. *)
Definition setData (data : option Branch) : M unit :=
  match data with
  | None => throw "Invalid Data"
  | Some b =>
      let '(r, h) := buildHierarchy b in
      assign (with_data b r h) ;;
      t <- this ;;
      match parent t with Some _ => redraw | None => ret tt end
  end.

(** *** The setters, lines 447-482 *)

Definition validLayouts : list string := ["horizontal"; "vertical"; "circular"].
Definition validTypes : list string := ["tree"; "weighted"; "dendrogram"].
Definition validModes : list string := ["smooth"; "square"; "straight"].

(** [Array.prototype.includes] on strings. *)
Definition includes (l : list string) (s : string) : bool :=
  existsb (String.eqb s) l.

Definition setLayout (newLayout : string) : M unit :=
  if negb (includes validLayouts newLayout)
  then throw "Cannot set TidyTree to layout:"
  else
    assign (with_layout newLayout) ;;
    t <- this ;;
    match parent t with Some _ => redraw | None => ret tt end.

Definition setMode (newMode : string) : M unit :=
  if negb (includes validModes newMode)
  then throw "Cannot set TidyTree to mode:"
  else
    assign (with_mode newMode) ;;
    t <- this ;;
    match parent t with Some _ => redraw | None => ret tt end.

Definition setType (newType : string) : M unit :=
  if negb (includes validTypes newType)
  then throw "Cannot set TidyTree to type:"
  else
    assign (with_type newType) ;;
    t <- this ;;
    match parent t with Some _ => redraw | None => ret tt end.

(** *** Events, lines 714-740 *)

(** [s.split(sep)] for a separator of one character. *)
Fixpoint split (sep : Ascii.ascii) (s : string) : list string :=
  match s with
  | EmptyString => [EmptyString]
  | String c s' =>
      if Ascii.eqb c sep then EmptyString :: split sep s'
      else
        match split sep s' with
        | w :: ws => String c w :: ws
        | [] => [String c EmptyString]
        end
  end.

Definition on (names : string) (callback : handler) : M unit :=
  assign (fun t =>
    with_events
      (fold_left (fun ev name => <[name := callback]> ev)
                 (split " "%char names) (events t)) t).

Definition nullFn : handler := fun _ => JNull.

Definition off (names : string) : M unit :=
  assign (fun t =>
    with_events
      (fold_left (fun ev name => <[name := nullFn]> ev)
                 (split " "%char names) (events t)) t).

Definition trigger (event : string) (args : list jsval) : M jsval :=
  t <- this ;;
  match events t !! event with
  | None => throw ("No event named " ++ event ++ " is defined.")
  | Some f => ret (f args)
  end.

(** ** Geometry: the path and transform generators, lines 131-285 and the
    label attributes of lines 362-392 *)

Module Geometry.

Local Open Scope R_scope.

(** A piece of a string under construction: literal text or a number that
    is still to be printed. *)
Inductive piece : Type :=
| Lit (s : string)
| Num (r : R).

Definition text : Type := list piece.

(** The string, given the printer of numbers. *)
Definition render (show : R -> string) (t : text) : string :=
  foldr (fun p s =>
           String.append (match p with Lit l => l | Num r => show r end) s)
        EmptyString t.

(** A positioned node: [d.x] and [d.y] as [d3.tree] or [d3.cluster] left
    them, [d.weight] as [redraw] computed it. *)
Record Node : Type := mkNode { x : R; y : R; weight : R }.

Record Link : Type := mkLink { source : Node; target : Node }.

Definition getX (d : Node) : R := x d.
Definition getY (d : Node) : R := y d.
Definition getLength (d : Node) : R := weight d.

(** An object literal used as a table. *)
Definition object (A : Type) : Type := list (string * A).

Fixpoint get {A : Type} (o : object A) (k : string) : option A :=
  match o with
  | [] => None
  | (k', v) :: o' => if String.eqb k k' then Some v else get o' k
  end.

(** [a % b] for a divisor other than zero: the remainder of the division
    truncated towards zero. *)
Definition trunc (r : R) : Z :=
  if Rle_dec 0 r then Int_part r else (- Int_part (- r))%Z.
Definition jsmod (a b : R) : R := a - b * IZR (trunc (a / b)).

Definition radToDeg : R := 180 / PI.

(** [Math.atan(a / b)], [None] for NaN. A zero divisor is the positive
    zero: [a / b] is then NaN or an infinity of the sign of [a]. *)
Definition atan_quotient (a b : R) : option R :=
  if Req_dec_T b 0 then
    if Req_dec_T a 0 then None
    else if Rlt_dec 0 a then Some (PI / 2) else Some (- (PI / 2))
  else Some (atan (a / b)).

(** [${Math.atan(a / b) * radToDeg}] *)
Definition degrees (a : option R) : piece :=
  match a with
  | Some r => Num (r * radToDeg)
  | None => Lit "NaN"
  end.

(** Lines 222-224. *)
Definition circularPoint (x y : R) : R * R :=
  let y := y in
  let x := x - PI / 2 in
  (y * cos x, y * sin x).

Section Transformers.

(** The link generators of d3-shape, which the sources configure with
    accessors and do not define: [d3.linkHorizontal().x(fx).y(fy)],
    [d3.linkVertical().x(fx).y(fy)] and
    [d3.linkRadial().angle(fa).radius(fr)]. *)
Variables linkHorizontal linkVertical linkRadial :
  (Node -> R) -> (Node -> R) -> Link -> text.

Definition linkTransformers_tree : object (object (Link -> text)) :=
  [ ("smooth",
      [ ("horizontal", linkHorizontal getY getX);
        ("vertical", linkVertical getX getY);
        ("circular", linkRadial getX getY) ]);
    ("straight",
      [ ("horizontal", fun d =>
           [Lit "M"; Num (y (source d)); Lit " "; Num (x (source d));
            Lit " L "; Num (y (target d)); Lit " "; Num (x (target d))]);
        ("vertical", fun d =>
           [Lit "M"; Num (x (source d)); Lit " "; Num (y (source d));
            Lit " L "; Num (x (target d)); Lit " "; Num (y (target d))]);
        ("circular", fun d =>
           let startAngle := x (source d) - PI / 2 in
           let startRadius := y (source d) in
           let endAngle := x (target d) - PI / 2 in
           let endRadius := y (target d) in
           let x0 := cos startAngle in
           let y0 := sin startAngle in
           let x1 := cos endAngle in
           let y1 := sin endAngle in
           [Lit "M"; Num (startRadius * x0); Lit ",";
            Num (startRadius * y0);
            Lit "L"; Num (endRadius * x1); Lit ",";
            Num (endRadius * y1)]) ]);
    ("square",
      [ ("horizontal", fun d =>
           [Lit "M"; Num (y (source d)); Lit " "; Num (x (source d));
            Lit " V "; Num (x (target d)); Lit " H "; Num (y (target d))]);
        ("vertical", fun d =>
           [Lit "M"; Num (x (source d)); Lit " "; Num (y (source d));
            Lit " H "; Num (x (target d)); Lit " V "; Num (y (target d))]);
        ("circular", fun d =>
           let startAngle := x (source d) - PI / 2 in
           let startRadius := y (source d) in
           let endAngle := x (target d) - PI / 2 in
           let endRadius := y (target d) in
           let x0 := cos startAngle in
           let y0 := sin startAngle in
           let x1 := cos endAngle in
           let y1 := sin endAngle in
           [Lit "M"; Num (startRadius * x0); Lit ",";
            Num (startRadius * y0)]
           ++ (if Req_dec_T endAngle startAngle then []
               else
                 [Lit "A"; Num startRadius; Lit ","; Num startRadius;
                  Lit " 0 0 ";
                  Num (if Rgt_dec endAngle startAngle then 1 else 0);
                  Lit " "; Num (startRadius * x1); Lit ",";
                  Num (startRadius * y1)])
           ++ [Lit "L"; Num (endRadius * x1); Lit ",";
               Num (endRadius * y1)]) ]) ].

Definition linkTransformers_weighted : object (object (Link -> text)) :=
  [ ("smooth",
      [ ("horizontal", linkHorizontal getLength getX);
        ("vertical", linkVertical getX getLength);
        ("circular", linkRadial getX getLength) ]);
    ("straight",
      [ ("horizontal", fun d =>
           [Lit "M"; Num (weight (source d)); Lit " "; Num (x (source d));
            Lit " L "; Num (weight (target d)); Lit " ";
            Num (x (target d))]);
        ("vertical", fun d =>
           [Lit "M"; Num (x (source d)); Lit " "; Num (weight (source d));
            Lit " L "; Num (x (target d)); Lit " ";
            Num (weight (target d))]);
        ("circular", fun d =>
           let startAngle := x (source d) - PI / 2 in
           let startRadius := weight (source d) in
           let endAngle := x (target d) - PI / 2 in
           let endRadius := weight (target d) in
           let x0 := cos startAngle in
           let y0 := sin startAngle in
           let x1 := cos endAngle in
           let y1 := sin endAngle in
           [Lit "M"; Num (startRadius * x0); Lit ",";
            Num (startRadius * y0);
            Lit "L"; Num (endRadius * x1); Lit ",";
            Num (endRadius * y1)]) ]);
    ("square",
      [ ("horizontal", fun d =>
           [Lit "M"; Num (weight (source d)); Lit " "; Num (x (source d));
            Lit " V "; Num (x (target d)); Lit " H ";
            Num (weight (target d))]);
        ("vertical", fun d =>
           [Lit "M"; Num (x (source d)); Lit " "; Num (weight (source d));
            Lit " H "; Num (x (target d)); Lit " V ";
            Num (weight (target d))]);
        ("circular", fun d =>
           let startAngle := x (source d) - PI / 2 in
           let startRadius := weight (source d) in
           let endAngle := x (target d) - PI / 2 in
           let endRadius := weight (target d) in
           let x0 := cos startAngle in
           let y0 := sin startAngle in
           let x1 := cos endAngle in
           let y1 := sin endAngle in
           [Lit "M"; Num (startRadius * x0); Lit ",";
            Num (startRadius * y0)]
           ++ (if Req_dec_T endAngle startAngle then []
               else
                 [Lit "A"; Num startRadius; Lit ","; Num startRadius;
                  Lit " 0 0 ";
                  Num (if Rgt_dec endAngle startAngle then 1 else 0);
                  Lit " "; Num (startRadius * x1); Lit ",";
                  Num (startRadius * y1)])
           ++ [Lit "L"; Num (endRadius * x1); Lit ",";
               Num (endRadius * y1)]) ]) ].

(** Lines 135-220, with [linkTransformers.dendrogram =
    linkTransformers.tree]. *)
Definition linkTransformers : object (object (object (Link -> text))) :=
  [ ("tree", linkTransformers_tree);
    ("weighted", linkTransformers_weighted);
    ("dendrogram", linkTransformers_tree) ].

End Transformers.

(** [linkTransformers[type][mode][layout]] and its like; [None] where the
    JavaScript lookup gives undefined or throws. *)
Definition get3 {A : Type} (o : object (object (object A)))
    (k1 k2 k3 : string) : option A :=
  o1 ← get o k1; o2 ← get o1 k2; get o2 k3.
Definition get2 {A : Type} (o : object (object A))
    (k1 k2 : string) : option A :=
  o1 ← get o k1; get o1 k2.

(** Lines 226-239, with [nodeTransformers.dendrogram =
    nodeTransformers.tree]. *)
Definition nodeTransformers_tree : object (Node -> text) :=
  [ ("horizontal", fun d =>
       [Lit "translate("; Num (y d); Lit ", "; Num (x d); Lit ")"]);
    ("vertical", fun d =>
       [Lit "translate("; Num (x d); Lit ", "; Num (y d); Lit ")"]);
    ("circular", fun d =>
       let p := circularPoint (x d) (y d) in
       [Lit "translate("; Num (fst p); Lit ","; Num (snd p); Lit ")"]) ].

Definition nodeTransformers_weighted : object (Node -> text) :=
  [ ("horizontal", fun d =>
       [Lit "translate("; Num (weight d); Lit ", "; Num (x d); Lit ")"]);
    ("vertical", fun d =>
       [Lit "translate("; Num (x d); Lit ", "; Num (weight d); Lit ")"]);
    ("circular", fun d =>
       let p := circularPoint (x d) (weight d) in
       [Lit "translate("; Num (fst p); Lit ","; Num (snd p); Lit ")"]) ].

Definition nodeTransformers : object (object (Node -> text)) :=
  [ ("tree", nodeTransformers_tree);
    ("weighted", nodeTransformers_weighted);
    ("dendrogram", nodeTransformers_tree) ].

(** Lines 243-285, with [labelTransformers.tree.smooth =
    labelTransformers.tree.straight], the same for [weighted], and
    [labelTransformers.dendrogram = labelTransformers.tree]. *)
Definition labelTransformers_tree_straight : object (Link -> text) :=
  [ ("horizontal", fun l =>
       [Lit "translate("; Num ((y (source l) + y (target l)) / 2); Lit ", ";
        Num ((x (source l) + x (target l)) / 2); Lit ") rotate(";
        degrees (atan_quotient (x (target l) - x (source l))
                               (y (target l) - y (source l)));
        Lit ")"]);
    ("vertical", fun l =>
       [Lit "translate("; Num ((x (source l) + x (target l)) / 2); Lit ", ";
        Num ((y (source l) + y (target l)) / 2); Lit ") rotate(";
        degrees (atan_quotient (y (source l) - y (target l))
                               (x (source l) - x (target l)));
        Lit ")"]);
    ("circular", fun l =>
       let s := circularPoint (x (source l)) (y (source l)) in
       let t := circularPoint (x (target l)) (y (target l)) in
       [Lit "translate("; Num ((fst s + fst t) / 2); Lit ", ";
        Num ((snd s + snd t) / 2); Lit ") rotate(";
        degrees (atan_quotient (snd s - snd t) (fst s - fst t));
        Lit ")"]) ].

Definition labelTransformers_tree_square : object (Link -> text) :=
  [ ("horizontal", fun l =>
       [Lit "translate("; Num ((y (source l) + y (target l)) / 2); Lit ", ";
        Num (x (target l)); Lit ")"]);
    ("vertical", fun l =>
       [Lit "translate("; Num (x (target l)); Lit ", ";
        Num ((y (source l) + y (target l)) / 2); Lit ") rotate(90)"]);
    ("circular", fun l =>
       let u := circularPoint (x (target l))
                              ((y (source l) + y (target l)) / 2) in
       [Lit "translate("; Num (fst u); Lit ", "; Num (snd u);
        Lit ") rotate("; Num (jsmod (x (target l) * radToDeg) 180 - 90);
        Lit ")"]) ].

Definition labelTransformers_weighted_straight : object (Link -> text) :=
  [ ("horizontal", fun l =>
       [Lit "translate(";
        Num ((weight (source l) + weight (target l)) / 2); Lit ", ";
        Num ((x (source l) + x (target l)) / 2); Lit ") rotate(";
        degrees (atan_quotient (x (target l) - x (source l))
                               (weight (target l) - weight (source l)));
        Lit ")"]);
    ("vertical", fun l =>
       [Lit "translate("; Num ((x (source l) + x (target l)) / 2); Lit ", ";
        Num ((weight (source l) + weight (target l)) / 2); Lit ") rotate(";
        degrees (atan_quotient (weight (source l) - weight (target l))
                               (x (source l) - x (target l)));
        Lit ")"]);
    ("circular", fun l =>
       let s := circularPoint (x (source l)) (weight (source l)) in
       let t := circularPoint (x (target l)) (weight (target l)) in
       [Lit "translate("; Num ((fst s + fst t) / 2); Lit ", ";
        Num ((snd s + snd t) / 2); Lit ") rotate(";
        degrees (atan_quotient (snd s - snd t) (fst s - fst t));
        Lit ")"]) ].

Definition labelTransformers_weighted_square : object (Link -> text) :=
  [ ("horizontal", fun l =>
       [Lit "translate(";
        Num ((weight (source l) + weight (target l)) / 2); Lit ", ";
        Num (x (target l)); Lit ")"]);
    ("vertical", fun l =>
       [Lit "translate("; Num (x (target l)); Lit ", ";
        Num ((weight (source l) + weight (target l)) / 2);
        Lit ") rotate(90)"]);
    ("circular", fun l =>
       let u := circularPoint (x (target l))
                              ((weight (source l) + weight (target l)) / 2) in
       [Lit "translate("; Num (fst u); Lit ", "; Num (snd u);
        Lit ") rotate("; Num (jsmod (x (target l) * radToDeg) 180 - 90);
        Lit ")"]) ].

Definition labelTransformers_tree : object (object (Link -> text)) :=
  [ ("straight", labelTransformers_tree_straight);
    ("square", labelTransformers_tree_square);
    ("smooth", labelTransformers_tree_straight) ].

Definition labelTransformers_weighted : object (object (Link -> text)) :=
  [ ("straight", labelTransformers_weighted_straight);
    ("square", labelTransformers_weighted_square);
    ("smooth", labelTransformers_weighted_straight) ].

Definition labelTransformers : object (object (object (Link -> text))) :=
  [ ("tree", labelTransformers_tree);
    ("weighted", labelTransformers_weighted);
    ("dendrogram", labelTransformers_tree) ].

(** The attributes [redraw] gives the label of a node: [transform],
    [text-anchor] and [x]. *)
Record LabelAttrs : Type := mkLabelAttrs {
  transform : text;
  text_anchor : string;
  x_offset : R
}.

(** Lines 362-371: the labels of entering nodes. *)
Definition nodeLabels_enter (layout : string) (l : Node) : LabelAttrs :=
  if String.eqb layout "vertical" then
    mkLabelAttrs [Lit "rotate(90)"] "start" 5
  else if String.eqb layout "horizontal" then
    mkLabelAttrs [Lit "rotate(0)"] "start" 5
  else
    mkLabelAttrs
      [Lit "rotate("; Num (jsmod (x l / PI * 180) 180 - 90); Lit ")"]
      (if Rgt_dec (jsmod (x l) (2 * PI)) PI then "end" else "start")
      (if Rgt_dec (jsmod (x l) (2 * PI)) PI then -5 else 5).

(** Lines 382-392: the labels of updated nodes. *)
Definition nodeLabels_update (layout : string) (l : Node) : LabelAttrs :=
  if String.eqb layout "vertical" then
    mkLabelAttrs [Lit "rotate(90)"] "start" 5
  else if String.eqb layout "horizontal" then
    mkLabelAttrs [Lit "rotate(0)"] "start" 5
  else
    mkLabelAttrs
      [Lit "rotate("; Num (jsmod (x l / PI * 180) 180 - 90); Lit ")"]
      (if Rgt_dec (jsmod (x l) (2 * PI)) PI then "end" else "start")
      (if Rgt_dec (jsmod (x l) (2 * PI)) PI then -5 else 5).

(** Reading a path: whether a literal piece of it holds the arc command
    [A], and the sweep flag of its arc, the number that follows the two zero
    flags. *)
Fixpoint contains (c : Ascii.ascii) (s : string) : bool :=
  match s with
  | EmptyString => false
  | String c' s' => Ascii.eqb c c' || contains c s'
  end.

Definition has_arc (t : text) : bool :=
  existsb (fun p => match p with Lit s => contains "A" s | Num _ => false end)
          t.

Fixpoint sweep_flag (t : text) : option R :=
  match t with
  | Lit s :: ((Num r :: _) as t') =>
      if String.eqb s " 0 0 " then Some r else sweep_flag t'
  | _ :: t' => sweep_flag t'
  | [] => None
  end.

(** The radius of a node in circular layout: its [weight] under the type
    weighted, its [y] under the other two. *)
Definition radius (type : string) (d : Node) : R :=
  if String.eqb type "weighted" then weight d else y d.

End Geometry.

(** ** The text of a link's distance label, lines 323-326 *)

Section LinkText.
(** [Number.prototype.toLocaleString], which depends on the locale of the
    browser. *)
Variable toLocaleString : Q -> string.

End LinkText.

(** ** Vocabulary of the statements *)

(** A name has no space in it. *)
Fixpoint spaceless (s : string) : bool :=
  match s with
  | EmptyString => true
  | String c s' => negb (Ascii.eqb c " ") && spaceless s'
  end.

(** A tree of two leaves; an object with the default options that has been
    drawn in a container 600 wide and 400 high and has no data yet; and the
    same object once given the tree. *)
Definition sample_tree : Branch :=
  mkBranch "R" None [mkBranch "A" (Some 1) []; mkBranch "B" (Some 2) []].

Definition blank : TidyTree :=
  mkTidyTree "vertical" "tree" "smooth" 500 (mkMargin 50 50 50 50) ∅
    (Some (mkContainer 600 400 (mkScene [] [] 0)))
    None None None None None None.

Definition sample : TidyTree := fst (setData (Some sample_tree) blank).

(** Modelled on the words of section 4.1: the distance of a branch to its
    parent, 0 if absent. *)
Definition distance (b : Branch) : Q :=
  match branch_length b with
  | Some q => q
  | None => 0
  end.

(** The branches of a tree, each parent before its children. *)
Fixpoint branches (b : Branch) : list Branch :=
  b :: flat_map branches (branch_children b).

(** Modelled on the words of section 4.1: the cumulative distance of every
    branch, in the order of [branches]: the cumulative distance of its
    parent ([parent_cumulative], 0 for the root) plus its own distance. *)
Fixpoint cumulative_distances (parent_cumulative : Q) (b : Branch) : list Q :=
  let c := parent_cumulative + distance b in
  c :: flat_map (cumulative_distances c) (branch_children b).

(** The greatest cumulative distance of the tree is [m]. *)
Definition max_cumulative_is (b : Branch) (m : Q) : Prop :=
  Forall (fun c => c <= m) (cumulative_distances 0 b) /\
  Exists (fun c => c == m) (cumulative_distances 0 b).

(** Along every path from the root, values do not decrease: no child has a
    value below its parent's. *)
Fixpoint monotone (d : HNode) : bool :=
  forallb (fun c => nle (value d) (value c) && monotone c) (children d).


(** The hierarchy of [b] in closed form: every node carries [val c] and
    [wt c] as its value and weight, [c] being what the [eachBefore] callback
    computes at it below a parent of value [pv]. *)
Fixpoint annotate (val : Q -> num) (wt : Q -> option num) (pv : Q)
    (b : Branch) : HNode :=
  match b with
  | mkBranch i l cs =>
      let c := pv + length_or_0 l in
      mkHNode i l (val c) (wt c) (List.map (annotate val wt c) cs)
  end.

(** The values [c] of [annotate], in the order of [nodes]. *)
Fixpoint computed (pv : Q) (b : Branch) : list Q :=
  match b with
  | mkBranch i l cs =>
      let c := pv + length_or_0 l in
      c :: flat_map (computed c) cs
  end.

(** The scenario of section 8: three leaves A, B, C at distances 1, 2, 3 in
    a caterpillar, drawn vertically, weighted, with straight links, in a
    container 600 wide and 400 high with margins of 50. *)
Definition caterpillar : Branch :=
  mkBranch "" None
    [mkBranch "A" (Some 1) [];
     mkBranch "" None [mkBranch "B" (Some 2) []; mkBranch "C" (Some 3) []]].

Definition scenario : TidyTree :=
  fst (setData (Some caterpillar)
         (mkTidyTree "vertical" "weighted" "straight" 500
            (mkMargin 50 50 50 50) ∅
            (Some (mkContainer 600 400 (mkScene [] [] 0)))
            None None None None None None)).

(** The element a group holds for a key: the one bound to a datum of that
    key. *)
Definition element_of {D : Type} (key : D -> string) (g : group D)
    (k : string) : option nat :=
  (list_to_map ((fun p => (key (snd p), fst p)) <$> g) : gmap string nat) !! k.

(** A group, each element with the identity of the node its datum comes
    from: the child of a link, the node itself. *)
Definition link_keys (g : group Link) : list (nat * string) :=
  (fun p => (fst p, data_id (target (snd p)))) <$> g.
Definition node_keys (g : group HNode) : list (nat * string) :=
  (fun p => (fst p, data_id (snd p))) <$> g.

Definition scene_of (t : TidyTree) : Scene :=
  match parent t with
  | Some c => scene c
  | None => mkScene [] [] 0
  end.

(** A tree with leaves A and B, and the same tree with a leaf N added in
    front of them. *)
Definition tree_before : Branch :=
  mkBranch "R" None [mkBranch "A" (Some 1) []; mkBranch "B" (Some 2) []].
Definition tree_after : Branch :=
  mkBranch "R" None
    [mkBranch "N" (Some 1) []; mkBranch "A" (Some 1) [];
     mkBranch "B" (Some 2) []].

Definition drawn_before : TidyTree := fst (setData (Some tree_before) blank).
Definition drawn_after : TidyTree :=
  fst (setData (Some tree_after) drawn_before).

(** No branch of the tree has a negative distance. *)
Definition nonnegative (b : Branch) : Prop :=
  Forall (fun c => 0 <= distance c) (branches b).

(** The value the normaliser leaves at a node where the callback computed
    [c], [hi] being the upper end of the range. *)
Definition normalized (hi : Q) (c : Q) : num := ndiv (Fin c) (Fin hi).

(** What [eachBefore] does on a finite range, below a parent of value [po]
    ([None] at the root): it builds the closed form and moves the upper end
    of the range to the greatest value computed, if that exceeds it. *)
Definition hierarchy_fact (po : option Q) (b : Branch) : Prop :=
  forall lo hi, exists lo' hi',
    eachBefore (Fin <$> po) b (Fin lo, Fin hi)
      = (annotate Fin (fun _ => None) (default 0 po) b, (Fin lo', Fin hi')) /\
    hi <= hi' /\
    Forall (fun c => c <= hi') (computed (default 0 po) b) /\
    (hi' = hi \/ In hi' (computed (default 0 po) b)).

(** ** Further vocabulary *)

(** The identities of the nodes of a hierarchy are pairwise distinct. *)
Definition distinct_ids (h : HNode) : Prop := NoDup (data_id <$> nodes h).


(** What [eachBefore] does to the lower end of a finite range, below a
    parent of value [po] ([None] at the root): it moves it to the least
    value computed, if that is below it. *)
Definition lower_fact (po : option Q) (b : Branch) : Prop :=
  forall lo hi, exists lo' hi',
    eachBefore (Fin <$> po) b (Fin lo, Fin hi)
      = (annotate Fin (fun _ => None) (default 0 po) b, (Fin lo', Fin hi')) /\
    lo' <= lo /\
    Forall (fun c => lo' <= c) (computed (default 0 po) b) /\
    (lo' = lo \/ In lo' (computed (default 0 po) b)).

(** ** The ruler: [updateRuler], lines 402-422 *)

(** Modelled from the spec: d3-hierarchy is not part of the sources.
    [node.height]: the number of links on the longest way down to a
    leaf. *)
Fixpoint hierarchy_height (d : HNode) : nat :=
  list_max (List.map (fun c => S (hierarchy_height c)) (children d)).

(** [d3.axisTop()] or [d3.axisLeft()]. *)
Inductive Axis : Type := axisTop | axisLeft.

(** [d3.scaleLinear(domain, range)]: the two ends of each. *)
Record Scale : Type := mkScale {
  scale_domain : num * num;
  scale_range : num * num
}.

(** The attributes of the group [g.tidytree-ruler]: the two numbers of its
    [translate], its opacity, and the axis last drawn in it, if any. *)
Record Ruler : Type := mkRuler {
  ruler_translate : num * num;
  ruler_opacity : Q;
  ruler_axis : option (Axis * Scale)
}.

(** A field read where a number is expected: undefined counts as NaN. *)
Definition or_NaN (o : option Q) : num :=
  match o with
  | Some q => Fin q
  | None => NaN
  end.

(** [updateRuler.call(this, transform)]: [show] is the field [this.ruler],
    [transform] the zoom factor [transform.k] of the argument ([None] when
    there is no argument), [r] the attributes of the ruler before the call.
    The result is the attributes after the call, with what the call
    produced. *)
Definition updateRuler (show : bool) (transform : option Q) (t : TidyTree)
    (r : Ruler) : Ruler * outcome unit :=
  let k := match transform with Some k => k | None => 1 end in
  match parent t with
  | None =>
      (r, Thrown "TypeError: Cannot read properties of undefined (reading 'select')")
  | Some _ =>
      if show then
        let tr :=
          if String.eqb (layout t) "horizontal"
          then (Fin (margin_3 (margin t)),
                nadd (or_NaN (height t)) (Fin (margin_0 (margin t))))
          else (Fin (margin_0 (margin t)), Fin (margin_3 (margin t))) in
        let axis :=
          if String.eqb (layout t) "horizontal" then axisTop else axisLeft in
        if String.eqb (type t) "tree"
           && negb (String.eqb (layout t) "circular") then
          match hierarchy t with
          | None =>
              (mkRuler tr 1 (ruler_axis r),
               Thrown "TypeError: Cannot read properties of undefined (reading 'height')")
          | Some h =>
              (mkRuler tr 1
                 (Some (axis,
                        mkScale
                          (Fin 0,
                           ndiv (Fin (inject_Z (Z.of_nat (hierarchy_height h))))
                                (Fin k))
                          (Fin 0, or_NaN (scalar t)))),
               Returned tt)
          end
        else if String.eqb (type t) "weighted"
                && negb (String.eqb (layout t) "circular") then
          match range t with
          | None =>
              (mkRuler tr 1 (ruler_axis r),
               Thrown "TypeError: Cannot read properties of undefined (reading '0')")
          | Some (lo, hi) =>
              (mkRuler tr 1
                 (Some (axis,
                        mkScale (lo, ndiv hi (Fin k))
                                (Fin 0, or_NaN (scalar t)))),
               Returned tt)
          end
        else (mkRuler tr 0 (ruler_axis r), Returned tt)
      else (mkRuler (ruler_translate r) 0 (ruler_axis r), Returned tt)
  end.

(** The value at [x] of the line through the points [(d0, r0)] and
    [(d1, r1)], which is what a linear scale of domain [d0, d1] and range
    [r0, r1] computes when [d0] and [d1] differ. *)
Definition line_through (d0 d1 r0 r1 x : Q) : Q :=
  r0 + (x - d0) / (d1 - d0) * (r1 - r0).

(** ** Reading positions off paths and transforms *)

Module PathReading.
Import Geometry.
Local Open Scope R_scope.

(** The pen of an SVG path after the absolute commands M, L, V and H, in
    the spellings the horizontal and vertical generators use, starting from
    the position [pen] ([None] before the first move). *)
Fixpoint pen_after (t : text) (pen : option (R * R)) : option (R * R) :=
  match t with
  | Lit c :: Num a :: Lit " " :: Num b :: t' =>
      if String.eqb c "M" || String.eqb c " L "
      then pen_after t' (Some (a, b)) else None
  | Lit c :: Num a :: t' =>
      match pen with
      | Some (px, py) =>
          if String.eqb c " V " then pen_after t' (Some (px, a))
          else if String.eqb c " H " then pen_after t' (Some (a, py))
          else None
      | None => None
      end
  | [] => pen
  | _ => None
  end.

(** Where a path ends, and where it starts. *)
Definition end_point (t : text) : option (R * R) := pen_after t None.
Definition start_point (t : text) : option (R * R) := pen_after (take 4 t) None.

(** The translation of a [translate(a, b)] transform. *)
Definition translation (t : text) : option (R * R) :=
  match t with
  | [Lit "translate("; Num a; Lit ", "; Num b; Lit ")"] => Some (a, b)
  | _ => None
  end.

End PathReading.

(** * Properties *)

(** ** Rejected configuration changes *)

Lemma includes_spec (l : list string) (s : string) :
  includes l s = true <-> s ∈ l.
Proof.
  unfold includes. rewrite existsb_exists. split.
  - intros (y & Hy & Heq). apply String.eqb_eq in Heq. subst.
    now apply list_elem_of_In.
  - intros H. exists s. split; [now apply list_elem_of_In|].
    apply String.eqb_refl.
Qed.

(** C3. A name outside the valid set makes [setLayout], [setType] and
    [setMode] throw, and the object the call leaves behind, with its
    layout, type and mode fields and the scene of its container, is the
    object it was given. *)
Theorem setters_reject_unknown_names (name : string) (t : TidyTree) :
  (name ∉ validLayouts ->
   setLayout name t = (t, Thrown "Cannot set TidyTree to layout:")) /\
  (name ∉ validTypes ->
   setType name t = (t, Thrown "Cannot set TidyTree to type:")) /\
  (name ∉ validModes ->
   setMode name t = (t, Thrown "Cannot set TidyTree to mode:")).
Proof.
  split; [|split]; intros Hn;
    unfold setLayout, setType, setMode;
    match goal with
    | |- context [includes ?l name] =>
        destruct (includes l name) eqn:E;
        [apply includes_spec in E; contradiction | reflexivity]
    end.
Qed.

Lemma setters_reject_unknown_names_witness :
  setLayout "diagonal" sample
    = (sample, Thrown "Cannot set TidyTree to layout:") /\
  setType "diagonal" sample
    = (sample, Thrown "Cannot set TidyTree to type:") /\
  setMode "diagonal" sample
    = (sample, Thrown "Cannot set TidyTree to mode:").
Proof.
  destruct (setters_reject_unknown_names "diagonal" sample) as (H1 & H2 & H3).
  split; [apply H1 | split; [apply H2 | apply H3]];
    intros H; apply includes_spec in H; vm_compute in H; discriminate.
Defined.

(** ** The distance label of a link *)



(** ** Events *)





(** ** The generators of circular layout *)

Module GeometryFacts.
Import Geometry.
Local Open Scope R_scope.

Lemma PI_nonzero : PI <> 0.
Proof. pose proof PI_RGT_0. lra. Qed.

Lemma trunc_half : trunc (1 / 2) = 0%Z.
Proof.
  unfold trunc. destruct (Rle_dec 0 (1 / 2)) as [_|H]; [|exfalso; lra].
  symmetry. apply Int_part_spec. simpl. lra.
Qed.

(** An angle of exactly [PI] is its own remainder modulo 2 [PI]. *)
Lemma jsmod_PI : jsmod PI (2 * PI) = PI.
Proof.
  unfold jsmod. replace (PI / (2 * PI)) with (1 / 2).
  - rewrite trunc_half. simpl. lra.
  - field. apply PI_nonzero.
Qed.

Lemma contains_append (c : Ascii.ascii) (s1 s2 : string) :
  contains c (String.append s1 s2) = contains c s1 || contains c s2.
Proof.
  induction s1 as [|c1 s1 IH]; simpl; [reflexivity|].
  now rewrite IH, orb_assoc.
Qed.

(** Under a printer of numbers that never writes the letter A, the rendered
    path holds that letter exactly when a literal piece of it does. *)
Lemma render_has_arc (show : R -> string) (t : text) :
  (forall r, contains "A" (show r) = false) ->
  contains "A" (render show t) = has_arc t.
Proof.
  intros Hshow. induction t as [|p t IH]; [reflexivity|].
  change (render show (p :: t))
    with (String.append (match p with Lit l => l | Num r => show r end)
                        (render show t)).
  rewrite contains_append, IH.
  destruct p as [s|r]; [reflexivity|]. simpl. now rewrite Hshow.
Qed.

Section Generators.
Variables linkHorizontal linkVertical linkRadial :
  (Node -> R) -> (Node -> R) -> Link -> text.

Let linkTransformers :=
  Geometry.linkTransformers linkHorizontal linkVertical linkRadial.

(** C7. [circularPoint a r] is [(r cos (a - PI/2), r sin (a - PI/2))], and
    in circular layout it gives, for every type, the translation of a
    node, the first and last point of a straight or square link, and the
    position of a link label in every mode. *)
Theorem circularPoint_is_shared :
  (forall a r : R,
     circularPoint a r = (r * cos (a - PI / 2), r * sin (a - PI / 2))) /\
  Forall (fun type =>
    exists f, get2 nodeTransformers type "circular" = Some f /\
      forall d,
        let p := circularPoint (x d) (radius type d) in
        f d = [Lit "translate("; Num (fst p); Lit ","; Num (snd p);
               Lit ")"])
    validTypes /\
  Forall (fun type => Forall (fun mode =>
    exists f, get3 linkTransformers type mode "circular" = Some f /\
      forall d,
        let s := circularPoint (x (source d)) (radius type (source d)) in
        let t := circularPoint (x (target d)) (radius type (target d)) in
        exists arc,
          f d = [Lit "M"; Num (fst s); Lit ","; Num (snd s)] ++ arc
                ++ [Lit "L"; Num (fst t); Lit ","; Num (snd t)])
    ["straight"; "square"]) validTypes /\
  Forall (fun type =>
    Forall (fun mode =>
      exists f, get3 labelTransformers type mode "circular" = Some f /\
        forall l,
          let s := circularPoint (x (source l)) (radius type (source l)) in
          let t := circularPoint (x (target l)) (radius type (target l)) in
          take 4 (f l) = [Lit "translate("; Num ((fst s + fst t) / 2);
                          Lit ", "; Num ((snd s + snd t) / 2)])
      ["straight"; "smooth"] /\
    exists f, get3 labelTransformers type "square" "circular" = Some f /\
      forall l,
        let u := circularPoint (x (target l))
                   ((radius type (source l) + radius type (target l)) / 2) in
        take 4 (f l) = [Lit "translate("; Num (fst u); Lit ", ";
                        Num (snd u)])
    validTypes.
Proof.
  split; [reflexivity|].
  split; [|split].
  - repeat constructor; (eexists; split; [reflexivity|]); intros d;
      reflexivity.
  - repeat constructor; (eexists; split; [reflexivity|]); intros d;
      cbv zeta; unfold circularPoint, radius; simpl;
      try (exists []; reflexivity);
      (destruct (Req_dec_T _ _); [exists []; reflexivity|]);
      eexists; reflexivity.
  - repeat constructor; (eexists; split; [reflexivity|]); intros l;
      reflexivity.
Qed.

(** C4. In circular layout the square generator exists for every type;
    when the angles of parent and child are equal its path is the move and
    the radial line, with no arc command in it; when they differ the path
    has an arc whose sweep flag is 1 exactly when the child's angle is the
    greater, and 0 otherwise. *)
Theorem square_circular_arc (type : string) :
  type ∈ validTypes ->
  exists f, get3 linkTransformers type "square" "circular" = Some f /\
    forall d,
      let s := circularPoint (x (source d)) (radius type (source d)) in
      let t := circularPoint (x (target d)) (radius type (target d)) in
      (x (target d) = x (source d) ->
       has_arc (f d) = false /\
       f d = [Lit "M"; Num (fst s); Lit ","; Num (snd s);
              Lit "L"; Num (fst t); Lit ","; Num (snd t)]) /\
      (x (target d) <> x (source d) ->
       has_arc (f d) = true /\
       (sweep_flag (f d) = Some 1 <-> x (target d) > x (source d)) /\
       (sweep_flag (f d) = Some 0 <-> ~ x (target d) > x (source d))).
Proof.
  intros Hin. apply list_elem_of_In in Hin.
  destruct Hin as [<- | [<- | [<- | []]]];
    (eexists; split; [reflexivity|]); intros d; cbv zeta;
    unfold circularPoint, radius; simpl; split; intros Hx.
  all: try (rewrite Hx;
            destruct (Req_dec_T _ _) as [_|Hne]; [|exfalso; apply Hne; reflexivity];
            split; reflexivity).
  all: destruct (Req_dec_T _ _) as [He|_]; [exfalso; apply Hx; lra|];
    simpl; (split; [reflexivity|]);
    destruct (Rgt_dec _ _) as [Hg|Hg]; split; split; intros H;
    try reflexivity; try lra;
    try (injection H; lra); try (exfalso; apply Hg; lra).
Qed.
End Generators.

Lemma square_circular_arc_witness :
  exists f,
    get3 (Geometry.linkTransformers (fun _ _ _ => []) (fun _ _ _ => [])
            (fun _ _ _ => [])) "tree" "square" "circular" = Some f /\
    has_arc (f (mkLink (mkNode 1 2 0) (mkNode 1 3 0))) = false /\
    has_arc (f (mkLink (mkNode 1 2 0) (mkNode 2 3 0))) = true /\
    sweep_flag (f (mkLink (mkNode 1 2 0) (mkNode 2 3 0))) = Some 1.
Proof.
  destruct (square_circular_arc (fun _ _ _ => []) (fun _ _ _ => [])
              (fun _ _ _ => []) "tree") as (f & Hf & H).
  { apply list_elem_of_In. left. reflexivity. }
  exists f. split; [exact Hf|].
  split; [|split].
  - apply (H (mkLink (mkNode 1 2 0) (mkNode 1 3 0))). reflexivity.
  - apply (H (mkLink (mkNode 1 2 0) (mkNode 2 3 0))). simpl. lra.
  - apply (H (mkLink (mkNode 1 2 0) (mkNode 2 3 0))); simpl; lra.
Defined.

(** C6. In circular layout the label of a node, entering or updated, is
    anchored "end" with offset -5 exactly when the remainder of its angle
    modulo 2 [PI] exceeds [PI], and "start" with offset 5 otherwise; at the
    angle [PI] itself it is anchored "start"; and it is rotated by the
    remainder of the angle in degrees modulo 180, less 90. *)
Theorem circular_label_attrs (l : Node) :
  let a := nodeLabels_enter "circular" l in
  nodeLabels_update "circular" l = a /\
  ((text_anchor a = "end" /\ x_offset a = -5)
     <-> jsmod (x l) (2 * PI) > PI) /\
  ((text_anchor a = "start" /\ x_offset a = 5)
     <-> ~ jsmod (x l) (2 * PI) > PI) /\
  (x l = PI -> text_anchor a = "start" /\ x_offset a = 5) /\
  transform a
    = [Lit "rotate("; Num (jsmod (x l * radToDeg) 180 - 90); Lit ")"].
Proof.
  cbv zeta. unfold nodeLabels_update, nodeLabels_enter. simpl.
  split; [reflexivity|].
  split; [|split; [|split]].
  - destruct (Rgt_dec _ _) as [H|H]; simpl; split; try tauto.
    + intros [H1 _]. discriminate.
  - destruct (Rgt_dec _ _) as [H|H]; simpl; split; try tauto.
    + intros [H1 _]. discriminate.
  - intros ->. rewrite jsmod_PI.
    destruct (Rgt_dec PI PI) as [H|H]; [exfalso; lra|]. now split.
  - replace (x l * radToDeg) with (x l / PI * 180); [reflexivity|].
    unfold radToDeg. field. apply PI_nonzero.
Qed.

Lemma circular_label_attrs_witness :
  text_anchor (nodeLabels_enter "circular" (mkNode PI 1 1)) = "start" /\
  x_offset (nodeLabels_enter "circular" (mkNode PI 1 1)) = 5.
Proof.
  apply (circular_label_attrs (mkNode PI 1 1)). reflexivity.
Defined.

End GeometryFacts.

(** ** The normaliser *)

Section BranchInduction.
Variable P : Branch -> Prop.
Hypothesis step : forall i l cs, Forall P cs -> P (mkBranch i l cs).

Fixpoint Branch_ind (b : Branch) : P b :=
  match b with
  | mkBranch i l cs =>
      step i l cs
        ((fix all (cs : list Branch) : Forall P cs :=
            match cs with
            | [] => @List.Forall_nil _ P
            | c :: cs' => @List.Forall_cons _ P c cs' (Branch_ind c) (all cs')
            end) cs)
  end.
End BranchInduction.

Lemma Qltb_lt (a b : Q) : Qltb a b = true <-> a < b.
Proof.
  unfold Qltb. rewrite negb_true_iff. split.
  - intros H. apply Qnot_le_lt. intros Hle.
    apply Qle_bool_iff in Hle. congruence.
  - intros H. destruct (Qle_bool b a) eqn:E; [|reflexivity].
    apply Qle_bool_iff in E. exfalso. apply (Qlt_not_le _ _ H E).
Qed.

Lemma Qltb_ge (a b : Q) : Qltb a b = false <-> b <= a.
Proof.
  unfold Qltb. rewrite negb_false_iff. apply Qle_bool_iff.
Qed.

Lemma Qeqb0_true (q : Q) : Qeqb0 q = true <-> q == 0.
Proof. unfold Qeqb0. apply Qeq_bool_iff. Qed.

Lemma Qeqb0_false (q : Q) : Qeqb0 q = false <-> ~ q == 0.
Proof.
  rewrite <- Qeqb0_true. destruct (Qeqb0 q); split; congruence.
Qed.


Lemma length_or_0_distance (b : Branch) :
  length_or_0 (branch_length b) == distance b.
Proof.
  unfold length_or_0, distance. destruct (branch_length b) as [q|]; [|reflexivity].
  destruct (Qeqb0 q) eqn:E; [|reflexivity].
  apply Qeqb0_true in E. now rewrite E.
Qed.

(** What the callback computes is the cumulative distance of section 4.1. *)
Lemma computed_cumulative (b : Branch) : forall pv pc,
  pv == pc ->
  Forall2 Qeq (computed pv b) (cumulative_distances pc b).
Proof.
  induction b as [i l cs IH] using Branch_ind. intros pv pc E.
  simpl. constructor.
  - rewrite E. apply Qplus_inj_l.
    apply (length_or_0_distance (mkBranch i l cs)).
  - assert (E' : pv + length_or_0 l == pc + distance (mkBranch i l cs)).
    { rewrite E. apply Qplus_inj_l.
      apply (length_or_0_distance (mkBranch i l cs)). }
    revert E'. generalize (pv + length_or_0 l) (pc + distance (mkBranch i l cs)).
    intros c c' E'.
    induction IH as [|b cs Hb _ IHcs]; simpl; [constructor|].
    apply Forall2_app; [now apply Hb | exact IHcs].
Qed.

Lemma nodes_annotate val wt (b : Branch) : forall pv,
  List.map value (nodes (annotate val wt pv b)) = List.map val (computed pv b).
Proof.
  induction b as [i l cs IH] using Branch_ind. intros pv.
  simpl. f_equal.
  generalize (pv + length_or_0 l). intros c.
  induction IH as [|b cs Hb _ IHcs]; simpl; [reflexivity|].
  rewrite !List.map_app. now rewrite Hb, IHcs.
Qed.

Lemma eachBefore_unfold pv i l cs range :
  eachBefore pv (mkBranch i l cs) range =
  let '(v, range1) := visit pv l range in
  let '(ds, range2) := eachBefore_children v cs range1 in
  (mkHNode i l v None ds, range2).
Proof. reflexivity. Qed.

(** On a finite range the callback leaves a finite range, whose upper end
    is the old one or the value just computed, whichever is greater. *)
Lemma visit_finite (po : option Q) (l : option Q) (lo hi : Q) :
  let c := default 0 po + length_or_0 l in
  exists lo1 hi1,
    visit (Fin <$> po) l (Fin lo, Fin hi) = (Fin c, (Fin lo1, Fin hi1)) /\
    hi <= hi1 /\ c <= hi1 /\ (hi1 = hi \/ hi1 = c).
Proof.
  intros c. unfold visit.
  assert (Ev : nadd (match Fin <$> po with Some pv => pv | None => Fin 0 end)
                    (Fin (length_or_0 l)) = Fin c) by (destruct po; reflexivity).
  rewrite Ev. cbn [fst snd]. unfold ngt.
  exists (match nlt (Fin c) (Fin lo) with true => c | false => lo end).
  destruct (nlt (Fin hi) (Fin c)) eqn:E; simpl in E.
  - apply Qltb_lt in E. exists c. repeat split.
    + now destruct (nlt (Fin c) (Fin lo)).
    + now apply Qlt_le_weak.
    + apply Qle_refl.
    + now right.
  - apply Qltb_ge in E. exists hi. repeat split.
    + now destruct (nlt (Fin c) (Fin lo)).
    + apply Qle_refl.
    + exact E.
    + now left.
Qed.

Lemma eachBefore_children_closed (c : Q) (cs : list Branch) :
  Forall (hierarchy_fact (Some c)) cs ->
  forall lo hi, exists lo' hi',
    eachBefore_children (Fin c) cs (Fin lo, Fin hi)
      = (List.map (annotate Fin (fun _ => None) c) cs, (Fin lo', Fin hi')) /\
    hi <= hi' /\
    Forall (fun x => x <= hi') (flat_map (computed c) cs) /\
    (hi' = hi \/ In hi' (flat_map (computed c) cs)).
Proof.
  induction 1 as [|b cs Hb _ IH]; intros lo hi; simpl.
  - exists lo, hi. repeat split; [apply Qle_refl | constructor | now left].
  - destruct (Hb lo hi) as (lo1 & hi1 & E1 & Hle1 & Hall1 & Hin1).
    simpl in E1. rewrite E1.
    destruct (IH lo1 hi1) as (lo2 & hi2 & E2 & Hle2 & Hall2 & Hin2).
    rewrite E2. exists lo2, hi2. repeat split.
    + now apply Qle_trans with hi1.
    + apply Forall_app. split; [|exact Hall2].
      eapply Forall_impl; [exact Hall1|].
      intros x Hx. simpl in Hx. now apply Qle_trans with hi1.
    + destruct Hin2 as [-> | Hin2].
      * destruct Hin1 as [-> | Hin1]; [now left|].
        right. apply in_app_iff. now left.
      * right. apply in_app_iff. now right.
Qed.

(** [eachBefore] builds the closed form, and moves the upper end of a
    finite range to the greatest value it met, if that exceeds it. *)
Lemma eachBefore_closed (b : Branch) : forall po, hierarchy_fact po b.
Proof.
  induction b as [i l cs IH] using Branch_ind. intros po lo hi.
  rewrite eachBefore_unfold.
  destruct (visit_finite po l lo hi) as (lo1 & hi1 & Ev & Hle1 & Hc1 & Hor1).
  rewrite Ev.
  assert (IH' : Forall (hierarchy_fact (Some (default 0 po + length_or_0 l))) cs).
  { eapply Forall_impl; [exact IH|]. intros b Hb. apply Hb. }
  destruct (eachBefore_children_closed _ cs IH' lo1 hi1)
    as (lo2 & hi2 & Ec & Hle2 & Hall2 & Hin2).
  rewrite Ec. exists lo2, hi2. simpl. repeat split.
  - now apply Qle_trans with hi1.
  - constructor; [now apply Qle_trans with hi1 | exact Hall2].
  - destruct Hin2 as [-> | Hin2].
    + destruct Hor1 as [-> | ->]; [now left | right; now left].
    + right. now right.
Qed.

(** A callback that rewrites the value and the weight of the node it is
    given does so at every node of the closed form. *)
Lemma each_annotate (f : HNode -> HNode) (fv : num -> num)
    (fw : num -> option num -> option num) :
  (forall i l v w cs, f (mkHNode i l v w cs) = mkHNode i l (fv v) (fw v w) cs) ->
  forall b val wt pv,
    each f (annotate val wt pv b)
    = annotate (fun c => fv (val c)) (fun c => fw (val c) (wt c)) pv b.
Proof.
  intros Hf b. induction b as [i l cs IH] using Branch_ind.
  intros val wt pv. simpl. rewrite Hf. f_equal.
  rewrite List.map_map. apply List.map_ext_Forall.
  eapply Forall_impl; [exact IH|]. intros b Hb. apply Hb.
Qed.

(** Lines 52-61 in closed form: the upper end [hi] of the range is the
    greatest value computed, or [MIN_SAFE_INTEGER] if that is greater, and
    every node carries its computed value divided by [hi]. *)
Lemma buildHierarchy_closed (b : Branch) :
  exists lo hi,
    buildHierarchy b
      = ((Fin lo, Fin hi), annotate (normalized hi) (fun _ => None) 0 b) /\
    Forall (fun c => c <= hi) (computed 0 b) /\
    (hi = MIN_SAFE_INTEGER \/ In hi (computed 0 b)).
Proof.
  unfold buildHierarchy.
  destruct (eachBefore_closed b None MAX_SAFE_INTEGER MIN_SAFE_INTEGER)
    as (lo & hi & E & _ & Hall & Hin).
  simpl in E. rewrite E. exists lo, hi. split; [|split; assumption].
  f_equal. simpl.
  apply (each_annotate (normalize (Fin hi)) (fun v => ndiv v (Fin hi))
           (fun _ w => w)).
  reflexivity.
Qed.

Lemma computed_head (pv : Q) (b : Branch) :
  exists rest,
    computed pv b = (pv + length_or_0 (branch_length b)) :: rest.
Proof. destruct b. simpl. eexists. reflexivity. Qed.

(** [redraw] on a drawn object whose hierarchy is in closed form. *)
Lemma redraw_closed (t : TidyTree) (c : Container) val wt (b : Branch) :
  parent t = Some c ->
  hierarchy t = Some (annotate val wt 0 b) ->
  let s := pixel_budget (layout t)
             (style_width c - margin_0 (margin t) - margin_2 (margin t))
             (style_height c - margin_1 (margin t) - margin_3 (margin t)) in
  snd (redraw t) = Returned tt /\
  scalar (fst (redraw t)) = Some s /\
  hierarchy (fst (redraw t))
    = Some (annotate val (fun x => Some (nmul (Fin s) (val x))) 0 b).
Proof.
  intros Hp Hh s. unfold redraw, bind, this, assign. simpl.
  rewrite Hp, Hh. simpl. repeat split. f_equal.
  apply (each_annotate (set_weight _) (fun v => v)
           (fun v _ => Some (nmul (Fin s) v))).
  reflexivity.
Qed.

(** *** Trees whose distances are not negative *)

Lemma nonnegative_inv i l cs :
  nonnegative (mkBranch i l cs) ->
  0 <= length_or_0 l /\ Forall nonnegative cs.
Proof.
  unfold nonnegative. simpl. intros H. inversion H as [|? ? H0 Hcs]; subst.
  split.
  - rewrite (length_or_0_distance (mkBranch i l cs)). exact H0.
  - apply List.Forall_flat_map in Hcs. exact Hcs.
Qed.

Lemma computed_lower (b : Branch) : forall pv,
  nonnegative b -> Forall (fun x => pv <= x) (computed pv b).
Proof.
  induction b as [i l cs IH] using Branch_ind. intros pv Hn.
  apply nonnegative_inv in Hn as [Hl Hcs]. simpl.
  assert (Hpv : pv <= pv + length_or_0 l).
  { rewrite <- (Qplus_0_r pv) at 1. apply Qplus_le_r. exact Hl. }
  constructor; [exact Hpv|].
  apply List.Forall_flat_map.
  rewrite List.Forall_forall in IH, Hcs. apply List.Forall_forall.
  intros c Hc. eapply Forall_impl; [apply (IH c Hc), Hcs, Hc|].
  intros x Hx. simpl in Hx. now apply Qle_trans with (pv + length_or_0 l).
Qed.

Lemma computed_positive (b : Branch) : forall pv,
  nonnegative b ->
  Exists (fun c => 0 < distance c) (branches b) ->
  Exists (fun x => pv < x) (computed pv b).
Proof.
  induction b as [i l cs IH] using Branch_ind. intros pv Hn Hex.
  pose proof (nonnegative_inv _ _ _ Hn) as [Hl Hcs]. simpl in *.
  inversion Hex as [? ? H0 | ? ? Hsub]; subst.
  - apply Exists_cons_hd.
    rewrite <- (length_or_0_distance (mkBranch i l cs)) in H0. simpl in H0.
    rewrite <- (Qplus_0_r pv) at 1. apply Qplus_lt_r. exact H0.
  - apply Exists_cons_tl. apply List.Exists_flat_map.
    apply List.Exists_flat_map in Hsub.
    rewrite List.Exists_exists in Hsub. destruct Hsub as (c & Hc & Hpos).
    apply List.Exists_exists. exists c. split; [exact Hc|].
    rewrite List.Forall_forall in IH, Hcs.
    eapply List.Exists_impl; [|apply (IH c Hc), Hpos; apply Hcs, Hc].
    intros x Hx. simpl in Hx.
    apply Qle_lt_trans with (pv + length_or_0 l); [|exact Hx].
    rewrite <- (Qplus_0_r pv) at 1. apply Qplus_le_r. exact Hl.
Qed.



(** [setData] in closed form. On a drawn object the weights are those of
    the redraw it ends with. *)
Lemma setData_closed (b : Branch) (t : TidyTree) :
  exists lo hi wt,
    snd (setData (Some b) t) = Returned tt /\
    range (fst (setData (Some b) t)) = Some (Fin lo, Fin hi) /\
    hierarchy (fst (setData (Some b) t))
      = Some (annotate (normalized hi) wt 0 b) /\
    Forall (fun c => c <= hi) (computed 0 b) /\
    (hi = MIN_SAFE_INTEGER \/ In hi (computed 0 b)) /\
    forall c, parent t = Some c ->
      let s := pixel_budget (layout t)
                 (style_width c - margin_0 (margin t) - margin_2 (margin t))
                 (style_height c - margin_1 (margin t) - margin_3 (margin t)) in
      scalar (fst (setData (Some b) t)) = Some s /\
      wt = fun x => Some (nmul (Fin s) (normalized hi x)).
Proof.
  destruct (buildHierarchy_closed b) as (lo & hi & E & Hall & Hin).
  unfold setData. rewrite E. unfold bind, assign, this. simpl.
  destruct (parent t) as [c|] eqn:Ep.
  - pose proof (redraw_closed (with_data b (Fin lo, Fin hi)
                  (annotate (normalized hi) (fun _ => None) 0 b) t)
                  c (normalized hi) (fun _ => None) b Ep eq_refl)
      as (Hr & Hs & Hh).
    simpl in Hr, Hs, Hh.
    exists lo, hi, (fun x => Some (nmul (Fin (pixel_budget (layout t)
                 (style_width c - margin_0 (margin t) - margin_2 (margin t))
                 (style_height c - margin_1 (margin t) - margin_3 (margin t))))
                 (normalized hi x))).
    refine (conj _ (conj _ (conj _ (conj Hall (conj Hin _))))).
    + exact Hr.
    + unfold redraw, bind, this, assign. simpl. now rewrite Ep.
    + exact Hh.
    + intros c' Hc'. injection Hc' as <-. split; [exact Hs | reflexivity].
  - exists lo, hi, (fun _ => None).
    refine (conj eq_refl (conj eq_refl (conj eq_refl (conj Hall (conj Hin _))))).
    intros c' Hc'. discriminate.
Qed.

Lemma normalized_positive (hi x : Q) :
  0 < hi -> normalized hi x = Fin (x / hi).
Proof.
  intros H. unfold normalized, ndiv.
  replace (Qeqb0 hi) with false; [reflexivity|].
  symmetry. apply Qeqb0_false. intros E. rewrite E in H.
  exact (Qlt_irrefl 0 H).
Qed.

Lemma normalized_zero (hi x : Q) :
  hi == 0 -> x <= 0 ->
  (x == 0 -> normalized hi x = NaN) /\ (x < 0 -> normalized hi x = NInf).
Proof.
  intros H Hx. unfold normalized, ndiv.
  replace (Qeqb0 hi) with true by (symmetry; now apply Qeqb0_true).
  split; intros Hc; destruct (x ?= 0) eqn:E; try reflexivity; exfalso.
  - apply Qlt_alt in E. rewrite Hc in E. exact (Qlt_irrefl 0 E).
  - apply Qgt_alt in E. rewrite Hc in E. exact (Qlt_irrefl 0 E).
  - apply Qeq_alt in E. rewrite E in Hc. exact (Qlt_irrefl 0 Hc).
  - apply Qgt_alt in E. exact (Qlt_irrefl 0 (Qlt_trans _ _ _ E Hc)).
Qed.

(** Values read off the closed form. *)
Lemma nodes_values val wt pv (b : Branch) (P : num -> Prop) :
  Forall (fun x => P (val x)) (computed pv b) ->
  Forall (fun d => P (value d)) (nodes (annotate val wt pv b)).
Proof.
  intros H. apply List.Forall_map. rewrite nodes_annotate.
  now apply List.Forall_map.
Qed.

Lemma map_Forall2 {A B C D : Type} (f : A -> C) (g : B -> C)
    (R : B -> D -> Prop) (S : A -> D -> Prop) (l1 : list A) :
  (forall a b d, f a = g b -> R b d -> S a d) ->
  forall (l2 : list B) (l3 : list D),
    List.map f l1 = List.map g l2 -> Forall2 R l2 l3 -> Forall2 S l1 l3.
Proof.
  intros H. induction l1 as [|a l1 IH]; intros l2 l3 E HR.
  - destruct l2; [|discriminate]. inversion HR. constructor.
  - destruct l2 as [|b l2]; [discriminate|]. injection E as E1 E2.
    inversion HR; subst. constructor; eauto.
Qed.

Lemma Forall_le_Qeq (m : Q) (l l' : list Q) :
  Forall2 Qeq l l' ->
  Forall (fun c => c <= m) l <-> Forall (fun c => c <= m) l'.
Proof.
  induction 1 as [|x y l l' E _ IH]; [tauto|].
  rewrite !Forall_cons_iff, IH, E. tauto.
Qed.

Lemma Exists_eq_Qeq (m : Q) (l l' : list Q) :
  Forall2 Qeq l l' ->
  Exists (fun c => c == m) l <-> Exists (fun c => c == m) l'.
Proof.
  induction 1 as [|x y l l' E _ IH].
  - split; intros H; inversion H.
  - rewrite !Exists_cons, IH, E. tauto.
Qed.

Lemma max_cumulative_computed (b : Branch) (m : Q) :
  max_cumulative_is b m <->
  Forall (fun c => c <= m) (computed 0 b) /\
  Exists (fun c => c == m) (computed 0 b).
Proof.
  pose proof (computed_cumulative b 0 0 (Qeq_refl 0)) as H.
  unfold max_cumulative_is.
  now rewrite (Forall_le_Qeq m _ _ H), (Exists_eq_Qeq m _ _ H).
Qed.

(** With no distance at the root, no negative distance and a positive one
    somewhere, the upper end of the range is positive and is the value
    computed at some node. *)
Lemma positive_maximum (b : Branch) (hi : Q) :
  nonnegative b ->
  Exists (fun c => 0 < distance c) (branches b) ->
  Forall (fun c => c <= hi) (computed 0 b) ->
  hi = MIN_SAFE_INTEGER \/ In hi (computed 0 b) ->
  0 < hi /\ In hi (computed 0 b).
Proof.
  intros Hn Hex Hall Hin.
  assert (Hpos : 0 < hi).
  { apply (computed_positive b 0 Hn) in Hex.
    apply List.Exists_exists in Hex as (x & Hx & Hlt).
    rewrite List.Forall_forall in Hall.
    apply Qlt_le_trans with x; [exact Hlt | now apply Hall]. }
  split; [exact Hpos|].
  destruct Hin as [-> | Hin]; [|exact Hin].
  exfalso. revert Hpos. now vm_compute.
Qed.







(** The other two conditions are needed as well: a distance at the root
    shows in its value, and a negative distance lets a child's value fall
    below its parent's. *)
Example normalized_root_with_distance :
  exists h,
    hierarchy (fst (setData
      (Some (mkBranch "R" (Some 1) [mkBranch "A" (Some 1) []])) blank))
      = Some h /\
    is_rat (value h) (1 / 2).
Proof. eexists. split; reflexivity. Qed.

Example normalized_negative_distance :
  exists h,
    hierarchy (fst (setData
      (Some (mkBranch "R" None
               [mkBranch "A" (Some 2) [mkBranch "B" (Some (-1)) []]])) blank))
      = Some h /\
    monotone h = false.
Proof. eexists. split; reflexivity. Qed.

Lemma computed_all_zero (b : Branch) : forall pv,
  Forall (fun c => distance c == 0) (branches b) ->
  Forall (fun x => x == pv) (computed pv b).
Proof.
  induction b as [i l cs IH] using Branch_ind. intros pv H.
  simpl in H. inversion H as [|? ? H0 Hcs]; subst.
  rewrite <- (length_or_0_distance (mkBranch i l cs)) in H0. simpl in H0.
  assert (E : pv + length_or_0 l == pv) by (rewrite H0; apply Qplus_0_r).
  simpl. constructor; [exact E|].
  apply List.Forall_flat_map. apply List.Forall_flat_map in Hcs.
  rewrite List.Forall_forall in IH, Hcs. apply List.Forall_forall.
  intros c Hc. eapply Forall_impl; [apply (IH c Hc), Hcs, Hc|].
  intros x Hx. simpl in Hx. now rewrite Hx.
Qed.

(** C9. When the greatest cumulative distance of the tree is 0, [setData]
    returns without throwing and leaves no node with a finite value: a node
    whose cumulative distance is 0 has NaN, a node below 0 has -Infinity.
    A tree none of whose nodes has a distance is such a tree, and all its
    values are NaN. *)
Theorem zero_maximum_not_finite (b : Branch) (t : TidyTree) :
  (max_cumulative_is b 0 ->
   snd (setData (Some b) t) = Returned tt /\
   exists h,
     hierarchy (fst (setData (Some b) t)) = Some h /\
     Forall (fun d => finite (value d) = false) (nodes h) /\
     Forall2 (fun d c => (c == 0 -> value d = NaN) /\
                         (c < 0 -> value d = NInf))
             (nodes h) (cumulative_distances 0 b)) /\
  (Forall (fun c => distance c == 0) (branches b) ->
   max_cumulative_is b 0 /\
   exists h,
     hierarchy (fst (setData (Some b) t)) = Some h /\
     Forall (fun d => value d = NaN) (nodes h)).
Proof.
  destruct (setData_closed b t)
    as (lo & hi & wt & Hret & _ & Hh & Hall & Hin & _).
  assert (Hzero : max_cumulative_is b 0 ->
            hi == 0 /\ Forall (fun x => x <= 0) (computed 0 b)).
  { intros Hmax. apply max_cumulative_computed in Hmax as [Hle Hex].
    split; [|exact Hle].
    apply List.Exists_exists in Hex as (x & Hx & Ex).
    rewrite List.Forall_forall in Hall, Hle.
    assert (H0 : 0 <= hi) by (rewrite <- Ex; now apply Hall).
    destruct Hin as [-> | Hin]; [exfalso; revert H0; now vm_compute|].
    apply Qle_antisym; [now apply Hle | exact H0]. }
  split.
  - intros Hmax. destruct (Hzero Hmax) as [Ehi Hle].
    split; [exact Hret|].
    exists (annotate (normalized hi) wt 0 b). split; [exact Hh|]. split.
    + apply (nodes_values _ _ _ _ (fun v => finite v = false)).
      eapply Forall_impl; [exact Hle|]. intros x Hx. simpl in Hx.
      destruct (normalized_zero hi x Ehi Hx) as [Hn Hi].
      apply Qle_lt_or_eq in Hx as [Hx|Hx];
        [rewrite (Hi Hx) | rewrite (Hn Hx)]; reflexivity.
    + assert (Hboth : Forall2 (fun x c => x <= 0 /\ x == c)
                        (computed 0 b) (cumulative_distances 0 b)).
      { pose proof (computed_cumulative b 0 0 (Qeq_refl 0)) as HF.
        clear -HF Hle. induction HF; inversion Hle; subst; constructor; auto. }
      eapply (map_Forall2 value (normalized hi));
        [| apply nodes_annotate | exact Hboth].
      intros d x c E [Hx Hxc]. rewrite E.
      destruct (normalized_zero hi x Ehi Hx) as [Hn Hi].
      split; intros Hc; [apply Hn | apply Hi]; now rewrite Hxc.
  - intros Hnone.
    pose proof (computed_all_zero b 0 Hnone) as Hz.
    assert (Hmax : max_cumulative_is b 0).
    { apply max_cumulative_computed. split.
      - eapply Forall_impl; [exact Hz|]. intros x Hx. simpl in Hx.
        rewrite Hx. apply Qle_refl.
      - destruct (computed_head 0 b) as [rest E]. rewrite E in Hz |- *.
        inversion Hz; subst. now left. }
    split; [exact Hmax|].
    destruct (Hzero Hmax) as [Ehi Hle].
    exists (annotate (normalized hi) wt 0 b). split; [exact Hh|].
    apply (nodes_values _ _ _ _ (fun v => v = NaN)).
    eapply Forall_impl; [exact Hz|]. intros x Hx. simpl in Hx.
    apply (normalized_zero hi x Ehi); [rewrite Hx; apply Qle_refl | exact Hx].
Qed.

Lemma zero_maximum_not_finite_witness :
  max_cumulative_is (mkBranch "R" None []) 0 /\
  snd (setData (Some (mkBranch "R" None [])) blank) = Returned tt /\
  exists h,
    hierarchy (fst (setData (Some (mkBranch "R" None [])) blank)) = Some h /\
    Forall (fun d => value d = NaN) (nodes h).
Proof.
  destruct (zero_maximum_not_finite (mkBranch "R" None []) blank) as [H1 H2].
  assert (Hnone : Forall (fun c => distance c == 0)
                    (branches (mkBranch "R" None []))).
  { simpl. repeat constructor. }
  destruct (H2 Hnone) as [Hmax Hh].
  split; [exact Hmax|]. split; [exact (proj1 (H1 Hmax)) | exact Hh].
Defined.

(** ** The projected weight *)

Section HNodeInduction.
Variable P : HNode -> Prop.
Hypothesis step : forall i l v w cs, Forall P cs -> P (mkHNode i l v w cs).

Fixpoint HNode_ind (d : HNode) : P d :=
  match d with
  | mkHNode i l v w cs =>
      step i l v w cs
        ((fix all (cs : list HNode) : Forall P cs :=
            match cs with
            | [] => @List.Forall_nil _ P
            | c :: cs' => @List.Forall_cons _ P c cs' (HNode_ind c) (all cs')
            end) cs)
  end.
End HNodeInduction.






(** The scenario of section 8: the budget is the height less the margins,
    the root has weight 0 and the deepest leaf, C, the whole budget. *)
Example scenario_weights :
  scalar scenario = Some (400 - 50 - 50) /\
  exists h, hierarchy scenario = Some h /\
    (exists w0, weight h = Some w0 /\ is_rat w0 0) /\
    Exists (fun d => data_id d = "C" /\ is_rat (value d) 1 /\
                     exists wd, weight d = Some wd /\ is_rat wd 300)
           (nodes h).
Proof.
  split; [reflexivity|]. eexists. split; [reflexivity|]. split.
  - eexists. split; reflexivity.
  - simpl. do 4 right. left. split; [reflexivity|]. split; [reflexivity|].
    eexists. split; reflexivity.
Qed.

(** ** The data joins *)

Lemma bool_decide_cons_ne (k x : string) (l : list string) :
  k <> x -> bool_decide (k ∈ x :: l) = bool_decide (k ∈ l).
Proof. intros H. apply bool_decide_ext. rewrite elem_of_cons. tauto. Qed.

Section KeyedJoin.
Context {D : Type} (key : D -> string).

Let keyed (g : group D) : list (string * nat) :=
  (fun p => (key (snd p), fst p)) <$> g.

Lemma keyed_fst (g : group D) : (keyed g).*1 = (key ∘ snd) <$> g.
Proof. unfold keyed. rewrite <- list_fmap_compose. reflexivity. Qed.

(** With distinct keys in the group no element is a duplicate, and the
    file holds every element under its key. *)
Lemma fileElements_distinct (g : group D) : forall byKey : gmap string nat,
  NoDup ((key ∘ snd) <$> g) ->
  (forall p, p ∈ g -> byKey !! key (snd p) = None) ->
  fileElements key g byKey
    = (list_to_map (keyed g) ∪ byKey, replicate (length g) false).
Proof.
  induction g as [|[e d] g IH]; intros byKey Hnd Hfree.
  - simpl. now rewrite (left_id_L ∅ (∪)).
  - rewrite fmap_cons in Hnd. apply NoDup_cons in Hnd as [Hd Hnd].
    pose proof (Hfree (e, d) (list_elem_of_here _ _)) as Hed.
    cbn [fileElements snd fst] in *. rewrite Hed.
    rewrite IH; [|exact Hnd|].
    + f_equal. unfold keyed. rewrite fmap_cons, list_to_map_cons.
      cbn [snd fst]. rewrite <- insert_union_l. symmetry.
      apply insert_union_r. apply not_elem_of_list_to_map_1.
      fold (keyed g). rewrite keyed_fst. exact Hd.
    + intros p Hp. rewrite lookup_insert_ne.
      * apply Hfree. now apply list_elem_of_further.
      * intros E. apply Hd. change (key d ∈ (key ∘ snd) <$> g).
        rewrite E. now apply (list_elem_of_fmap_2 (key ∘ snd)).
Qed.

(** With distinct keys in the data every datum takes what the file holds
    under its key, and the file loses exactly the keys of the data. *)
Lemma bindData_distinct (data : list D) : forall byKey : gmap string nat,
  NoDup (key <$> data) ->
  exists byKey',
    bindData key data byKey
      = ((fun x => (byKey !! key x, x)) <$> data, byKey') /\
    forall k, byKey' !! k
              = if bool_decide (k ∈ key <$> data) then None else byKey !! k.
Proof.
  induction data as [|x data IH]; intros byKey Hnd.
  - exists byKey. split; [reflexivity|]. intros k.
    case_bool_decide as Hk; [|reflexivity].
    rewrite fmap_nil in Hk. now apply not_elem_of_nil in Hk.
  - rewrite fmap_cons in Hnd. apply NoDup_cons in Hnd as [Hx Hnd].
    assert (Hne : forall y, y ∈ data -> key x <> key y).
    { intros y Hy E. apply Hx. rewrite E. now apply list_elem_of_fmap_2. }
    cbn [bindData]. destruct (byKey !! key x) as [e|] eqn:Ex.
    + destruct (IH (delete (key x) byKey) Hnd) as (m & Eb & Hm).
      rewrite Eb. exists m. split.
      * rewrite fmap_cons, Ex. f_equal. f_equal.
        apply list_fmap_ext. intros i y Hy.
        apply list_elem_of_lookup_2 in Hy.
        now rewrite lookup_delete_ne by now apply Hne.
      * intros k. rewrite Hm, fmap_cons.
        destruct (decide (k = key x)) as [->|Hk].
        -- rewrite (bool_decide_eq_true_2 (key x ∈ key x :: _))
             by apply list_elem_of_here.
           case_bool_decide; [reflexivity | apply lookup_delete_eq].
        -- rewrite lookup_delete_ne by congruence.
           now rewrite (bool_decide_cons_ne _ _ _ Hk).
    + destruct (IH byKey Hnd) as (m & Eb & Hm).
      rewrite Eb. exists m. split; [now rewrite fmap_cons, Ex|].
      intros k. rewrite Hm, fmap_cons.
      destruct (decide (k = key x)) as [->|Hk].
      -- rewrite (bool_decide_eq_true_2 (key x ∈ key x :: _))
           by apply list_elem_of_here.
         now case_bool_decide.
      -- now rewrite (bool_decide_cons_ne _ _ _ Hk).
Qed.
Lemma leftOver_filter (Q : nat * D -> Prop) `{!forall p, Decision (Q p)}
    (g : group D) (byKey : gmap string nat) :
  (forall p, p ∈ g -> byKey !! key (snd p) = Some (fst p) <-> Q p) ->
  leftOver key g (replicate (length g) false) byKey = filter Q g.
Proof.
  induction g as [|[e d] g IH]; intros HQ; [reflexivity|].
  cbn [leftOver length replicate orb].
  rewrite IH by (intros p Hp; apply HQ; now apply list_elem_of_further).
  pose proof (HQ (e, d) (list_elem_of_here _ _)) as Hed. cbn in Hed.
  destruct (decide (Q (e, d))) as [Hq|Hq].
  - rewrite filter_cons_True by exact Hq.
    now rewrite bool_decide_eq_true_2 by now apply Hed.
  - rewrite filter_cons_False by exact Hq.
    rewrite bool_decide_eq_false_2; [reflexivity|].
    intros E. apply Hq. now apply Hed.
Qed.

Lemma element_of_spec (g : group D) (e : nat) (k : string) :
  NoDup ((key ∘ snd) <$> g) ->
  element_of key g k = Some e <-> exists d, (e, d) ∈ g /\ key d = k.
Proof.
  intros Hnd. unfold element_of. fold (keyed g).
  rewrite <- elem_of_list_to_map by now rewrite keyed_fst.
  unfold keyed. rewrite list_elem_of_fmap. split.
  - intros ([e' d] & E & Hp). injection E as -> ->. now exists d.
  - intros (d & Hp & <-). now exists (e, d).
Qed.

(** The keyed join binds by identity when keys are distinct in the scene
    and in the data: a datum updates the element that carried its key and
    no other, a datum whose key is new enters, and the elements whose key
    is gone exit. *)
Lemma bindKey_by_identity (g : group D) (data : list D) :
  NoDup ((key ∘ snd) <$> g) ->
  NoDup (key <$> data) ->
  bound (bindKey key g data)
    = (fun x => (element_of key g (key x), x)) <$> data /\
  exiting (bindKey key g data)
    = filter (fun p => key (snd p) ∉ key <$> data) g /\
  (forall e x, (Some e, x) ∈ bound (bindKey key g data) ->
     exists d, (e, d) ∈ g /\ key d = key x) /\
  (forall x, (None, x) ∈ bound (bindKey key g data) <->
     x ∈ data /\ key x ∉ (key ∘ snd) <$> g).
Proof.
  intros Hg Hdata. unfold bindKey.
  rewrite (fileElements_distinct g ∅ Hg)
    by (intros; apply lookup_empty).
  rewrite (right_id_L ∅ (∪)).
  destruct (bindData_distinct data (list_to_map (keyed g)) Hdata)
    as (m & Eb & Hm).
  rewrite Eb. cbn [bound exiting].
  split; [reflexivity|]. split; [|split].
  - apply leftOver_filter. intros [e d] Hp. cbn [fst snd]. rewrite Hm.
    assert (He : (list_to_map (keyed g) : gmap string nat) !! key d
                 = Some e).
    { apply (element_of_spec g e (key d) Hg). now exists d. }
    case_bool_decide as Hk; rewrite ?He; split; try tauto; discriminate.
  - intros e x Hin. apply list_elem_of_fmap in Hin as (x' & E & _).
    injection E as E ->. symmetry in E.
    now apply (element_of_spec g e (key x') Hg).
  - intros x. rewrite list_elem_of_fmap. split.
    + intros (x' & E & Hx'). injection E as E ->. split; [exact Hx'|].
      intros Hk. apply list_elem_of_fmap in Hk as ([e d] & Ek & Hp).
      cbn in Ek. assert (He : element_of key g (key x') = Some e)
        by (apply (element_of_spec g e _ Hg); now exists d).
      unfold element_of in He. fold (keyed g) in He. congruence.
    + intros [Hx Hk]. exists x. split; [|exact Hx]. f_equal.
      change (None = element_of key g (key x)).
      destruct (element_of key g (key x)) as [e|] eqn:E; [|reflexivity].
      exfalso. apply Hk.
      apply (element_of_spec g e _ Hg) in E as (d & Hp & Ed).
      rewrite <- Ed. now apply (list_elem_of_fmap_2 (key ∘ snd) _ (e, d)).
Qed.
End KeyedJoin.

(** The join without a key binds by position, whatever the data are. *)
Lemma bindIndex_by_position {D : Type} (g : group D) : forall (data : list D)
    (i e : nat) (d x : D),
  g !! i = Some (e, d) -> data !! i = Some x ->
  bound (bindIndex g data) !! i = Some (Some e, x).
Proof.
  induction g as [|[e0 d0] g IH]; intros data i e d x Hg Hx.
  - destruct i; discriminate.
  - destruct data as [|x0 data]; [destruct i; discriminate|].
    destruct i as [|i]; simpl in *.
    + now injection Hg as -> _; injection Hx as ->.
    + eapply IH; eassumption.
Qed.

(** C2 on the failing input. The tree R(A, B) is drawn, then R(N, A, B).
    The nodes group, joined under the key [d.data.id], has N alone enter and
    leaves R, A and B on their elements. The links group, joined without a
    key, hands the element of A's link to N's link and that of B's link to
    A's, and has B's link enter. *)
Theorem links_rebound_by_position :
  link_keys (link_elements (scene_of drawn_before))
    = [(0, "A"); (1, "B")]%nat /\
  node_keys (node_elements (scene_of drawn_before))
    = [(2, "R"); (3, "A"); (4, "B")]%nat /\
  link_keys (link_elements (scene_of drawn_after))
    = [(0, "N"); (1, "A"); (5, "B")]%nat /\
  node_keys (node_elements (scene_of drawn_after))
    = [(2, "R"); (6, "N"); (3, "A"); (4, "B")]%nat /\
  exists h, hierarchy drawn_after = Some h /\
    link_keys (updating (join_links (scene_of drawn_before) h))
      = [(0, "N"); (1, "A")]%nat /\
    node_keys (updating (join_nodes (scene_of drawn_before) h))
      = [(2, "R"); (3, "A"); (4, "B")]%nat /\
    (data_id ∘ target) <$> entering (join_links (scene_of drawn_before) h)
      = ["B"] /\
    data_id <$> entering (join_nodes (scene_of drawn_before) h) = ["N"] /\
    exiting (join_links (scene_of drawn_before) h) = [] /\
    exiting (join_nodes (scene_of drawn_before) h) = [].
Proof.
  split; [reflexivity|]. split; [reflexivity|].
  split; [reflexivity|]. split; [reflexivity|].
  eexists. split; [reflexivity|].
  split; [reflexivity|]. split; [reflexivity|].
  split; [reflexivity|]. split; [reflexivity|].
  split; reflexivity.
Qed.

(** * Further properties *)

(** ** The scene after a redraw *)

Lemma place_snd {D : Type} (b : list (option nat * D)) : forall n,
  snd <$> fst (place b n) = snd <$> b.
Proof.
  induction b as [|[[e|] x] b IH]; intros n; [reflexivity| |]; cbn [place].
  - specialize (IH n). destruct (place b n) as [g m].
    cbn [fst] in *. rewrite !fmap_cons. cbn [snd]. now f_equal.
  - specialize (IH (S n)). destruct (place b (S n)) as [g m].
    cbn [fst] in *. rewrite !fmap_cons. cbn [snd]. now f_equal.
Qed.

Lemma bindIndex_snd {D : Type} (g : group D) : forall data : list D,
  snd <$> bound (bindIndex g data) = data.
Proof.
  induction g as [|[e d] g IH]; intros data.
  - cbn [bindIndex bound]. rewrite <- list_fmap_compose. apply list_fmap_id.
  - destruct data as [|x data]; [reflexivity|].
    cbn [bindIndex bound]. rewrite fmap_cons. cbn [snd]. now rewrite IH.
Qed.

Lemma bindData_snd {D : Type} (key : D -> string) (data : list D) :
  forall byKey, snd <$> fst (bindData key data byKey) = data.
Proof.
  induction data as [|x data IH]; intros byKey; [reflexivity|].
  cbn [bindData]. destruct (byKey !! key x).
  - specialize (IH (delete (key x) byKey)).
    destruct (bindData key data (delete (key x) byKey)).
    cbn [fst] in *. rewrite fmap_cons. cbn [snd]. now f_equal.
  - specialize (IH byKey). destruct (bindData key data byKey).
    cbn [fst] in *. rewrite fmap_cons. cbn [snd]. now f_equal.
Qed.

Lemma bindKey_snd {D : Type} (key : D -> string) (g : group D)
    (data : list D) :
  snd <$> bound (bindKey key g data) = data.
Proof.
  unfold bindKey. destruct (fileElements key g ∅) as [m dup].
  pose proof (bindData_snd key data m) as H.
  destruct (bindData key data m) as [b m']. exact H.
Qed.

Lemma concat_merge_levels {A : Type} (a : list (list A)) : forall b,
  concat (merge_levels a b) ≡ₚ concat a ++ concat b.
Proof.
  induction a as [|l a IH]; intros b; [reflexivity|].
  destruct b as [|r b]; simpl.
  - now rewrite app_nil_r.
  - rewrite IH. rewrite <- !app_assoc. apply Permutation_app_head.
    rewrite !app_assoc. apply Permutation_app_tail. apply Permutation_app_comm.
Qed.

(** [descendants] lists the nodes of the hierarchy, each once. *)
Lemma descendants_nodes (h : HNode) : descendants h ≡ₚ nodes h.
Proof.
  unfold descendants.
  induction h as [i l v w cs IH] using HNode_ind.
  simpl. apply Permutation_cons; [reflexivity|].
  induction IH as [|c cs Hc _ IHcs]; simpl; [reflexivity|].
  now rewrite concat_merge_levels, Hc, IHcs.
Qed.




Lemma rejoin_data (s : Scene) (h : HNode) :
  snd <$> link_elements (rejoin s h) = links h /\
  snd <$> node_elements (rejoin s h) = descendants h.
Proof.
  unfold rejoin.
  pose proof (place_snd (bound (join_links s h)) (fresh s)) as Hl.
  destruct (place (bound (join_links s h)) (fresh s)) as [ls n1].
  pose proof (place_snd (bound (join_nodes s h)) n1) as Hn.
  destruct (place (bound (join_nodes s h)) n1) as [ns n2].
  cbn [fst link_elements node_elements] in *. split.
  - rewrite Hl. apply bindIndex_snd.
  - rewrite Hn. apply bindKey_snd.
Qed.

Lemma redraw_drawn (t : TidyTree) (c : Container) (h : HNode) :
  parent t = Some c -> hierarchy t = Some h ->
  let w := style_width c - margin_0 (margin t) - margin_2 (margin t) in
  let hg := style_height c - margin_1 (margin t) - margin_3 (margin t) in
  let s := pixel_budget (layout t) w hg in
  let h' := each (set_weight s) h in
  redraw t
  = (with_parent (mkContainer (style_width c) (style_height c)
                    (rejoin (scene c) h'))
       (with_hierarchy h' (with_sizes w hg s t)),
     Returned tt).
Proof.
  intros Hp Hh. unfold redraw, bind, this, assign. simpl.
  rewrite Hp. simpl. now rewrite Hh.
Qed.



(** ** Redrawing unchanged data *)

Lemma place_updates {D : Type} (g : group D) (n : nat) :
  place ((fun p => (Some (fst p), snd p)) <$> g) n = (g, n).
Proof.
  induction g as [|[e x] g IH]; [reflexivity|].
  rewrite fmap_cons. cbn [place fst snd]. now rewrite IH.
Qed.

Lemma bindIndex_same {D : Type} (g : group D) :
  bound (bindIndex g (snd <$> g)) = (fun p => (Some (fst p), snd p)) <$> g.
Proof.
  induction g as [|[e x] g IH]; [reflexivity|].
  rewrite !fmap_cons. cbn [bindIndex bound fst snd]. now rewrite IH.
Qed.

Lemma bindKey_same {D : Type} (key : D -> string) (g : group D) :
  NoDup (key <$> (snd <$> g)) ->
  bound (bindKey key g (snd <$> g)) = (fun p => (Some (fst p), snd p)) <$> g.
Proof.
  intros Hnd.
  assert (Hg : NoDup ((key ∘ snd) <$> g)) by now rewrite list_fmap_compose.
  destruct (bindKey_by_identity key g (snd <$> g) Hg Hnd) as (Hb & _).
  rewrite Hb, <- list_fmap_compose. apply list_fmap_ext.
  intros i [e x] Hp. cbn. f_equal.
  apply (element_of_spec key g e (key x) Hg). exists x. split; [|reflexivity].
  now apply list_elem_of_lookup_2 in Hp.
Qed.

(** Joining a scene again to the data it is bound to changes nothing,
    provided the keys of the nodes are distinct. *)
Lemma rejoin_same (s : Scene) (h : HNode) :
  NoDup (data_id <$> descendants h) ->
  rejoin (rejoin s h) h = rejoin s h.
Proof.
  intros Hnd. destruct (rejoin_data s h) as [Hl Hn].
  destruct (rejoin s h) as [ls ns n] eqn:E. cbn [link_elements node_elements] in *.
  unfold rejoin, join_links, join_nodes. cbn [link_elements node_elements fresh].
  rewrite <- Hl, bindIndex_same, place_updates.
  rewrite <- Hn, bindKey_same, place_updates; [reflexivity|].
  now rewrite Hn.
Qed.

Lemma each_set_weight_twice (s : Q) (h : HNode) :
  each (set_weight s) (each (set_weight s) h) = each (set_weight s) h.
Proof.
  induction h as [i l v w cs IH] using HNode_ind.
  cbn [each set_weight children]. f_equal.
  rewrite List.map_map. apply List.map_ext_Forall. exact IH.
Qed.

Lemma nodes_each_ids (f : HNode -> HNode) (h : HNode) :
  (forall d, data_id (f d) = data_id d) ->
  data_id <$> nodes (each f h) = data_id <$> nodes h.
Proof.
  intros Hf. induction h as [i l v w cs IH] using HNode_ind.
  pose proof (Hf (mkHNode i l v w cs)) as Hid.
  cbn [each]. destruct (f (mkHNode i l v w cs)) as [i' l' v' w' cs'].
  cbn [data_id] in Hid. subst i'.
  cbn [nodes children]. rewrite !fmap_cons. cbn [data_id]. f_equal.
  induction IH as [|c cs Hc _ IHcs]; [reflexivity|].
  cbn [List.map flat_map]. rewrite !fmap_app. now rewrite Hc, IHcs.
Qed.

Lemma distinct_ids_descendants (s : Q) (h : HNode) :
  distinct_ids h ->
  NoDup (data_id <$> descendants (each (set_weight s) h)).
Proof.
  unfold distinct_ids. intros Hnd.
  rewrite descendants_nodes, nodes_each_ids; [exact Hnd|].
  now intros [].
Qed.

(** X2. [redraw] is idempotent when the identities of the nodes are
    distinct: a second redraw of unchanged data returns and leaves sizes,
    weights and scene, with every element and the datum bound to it, as
    the first one left them. *)
Theorem redraw_idempotent (t : TidyTree) (c : Container) (h : HNode) :
  parent t = Some c -> hierarchy t = Some h ->
  distinct_ids h ->
  redraw (fst (redraw t)) = (fst (redraw t), Returned tt).
Proof.
  intros Hp Hh Hnd. rewrite (redraw_drawn t c h Hp Hh). cbn [fst].
  erewrite redraw_drawn; [|reflexivity|reflexivity].
  cbn [style_width style_height scene margin layout with_parent
       with_hierarchy with_sizes].
  rewrite each_set_weight_twice, rejoin_same
    by now apply distinct_ids_descendants.
  reflexivity.
Qed.

Lemma redraw_idempotent_witness :
  redraw (fst (redraw sample)) = (fst (redraw sample), Returned tt).
Proof.
  apply (redraw_idempotent sample (mkContainer 600 400 (scene_of sample))
           (default (mkHNode "" None NaN None []) (hierarchy sample))
           eq_refl eq_refl).
  unfold distinct_ids. apply (bool_decide_unpack _). now vm_compute.
Defined.

Lemma annotate_ids val wt (b : Branch) : forall pv,
  data_id <$> nodes (annotate val wt pv b) = branch_id <$> branches b.
Proof.
  induction b as [i l cs IH] using Branch_ind. intros pv.
  cbn [annotate nodes branches children branch_children].
  rewrite !fmap_cons. cbn [data_id branch_id]. f_equal.
  generalize (pv + length_or_0 l). intros c.
  induction IH as [|b cs Hb _ IHcs]; [reflexivity|].
  cbn [List.map flat_map]. rewrite !fmap_app. now rewrite Hb, IHcs.
Qed.

Lemma setData_unfold (b : Branch) (t : TidyTree) :
  setData (Some b) t
  = match parent t with
    | Some _ =>
        redraw (with_data b (fst (buildHierarchy b)) (snd (buildHierarchy b)) t)
    | None =>
        (with_data b (fst (buildHierarchy b)) (snd (buildHierarchy b)) t,
         Returned tt)
    end.
Proof.
  unfold setData. destruct (buildHierarchy b) as [r h].
  unfold bind, assign, this. cbn [fst snd]. cbn [parent with_data].
  now destruct (parent t).
Qed.

(** X3. [setData] is idempotent when the identities of the branches are
    distinct: given the same tree again, it returns and leaves the object,
    its range, hierarchy, sizes and scene, as the first call left it. *)
Theorem setData_idempotent (b : Branch) (t : TidyTree) :
  NoDup (branch_id <$> branches b) ->
  setData (Some b) (fst (setData (Some b) t))
  = (fst (setData (Some b) t), Returned tt).
Proof.
  intros Hnd.
  destruct (buildHierarchy_closed b) as (lo & hi & E & _).
  rewrite (setData_unfold b t), E. cbn [fst snd].
  destruct (parent t) as [c|] eqn:Ep.
  - erewrite (redraw_drawn (with_data _ _ _ t)); [|exact Ep|reflexivity].
    cbn [fst]. rewrite setData_unfold, E. cbn [fst snd parent with_parent].
    erewrite redraw_drawn; [|reflexivity|reflexivity].
    cbn [style_width style_height scene margin layout with_parent
         with_hierarchy with_sizes with_data].
    rewrite rejoin_same; [reflexivity|].
    apply distinct_ids_descendants. unfold distinct_ids.
    now rewrite annotate_ids.
  - cbn [fst]. rewrite setData_unfold, E. cbn [fst snd parent with_data].
    now rewrite Ep.
Qed.

Lemma setData_idempotent_witness :
  setData (Some sample_tree) sample = (sample, Returned tt).
Proof.
  apply (setData_idempotent sample_tree blank).
  apply (bool_decide_unpack _). now vm_compute.
Defined.

(** ** The two joins *)

(** X4. The nodes join goes by identity. When the nodes group is bound to
    a hierarchy of distinct identities and is joined to another such
    hierarchy, a node whose identity was in the scene updates the element
    that carried that identity, and an element is never handed to a node
    of another identity; the nodes that enter are those whose identity is
    new; the elements that exit are those whose identity is gone. *)
Theorem nodes_join_by_identity (s : Scene) (h_old h : HNode) :
  snd <$> node_elements s = descendants h_old ->
  distinct_ids h_old -> distinct_ids h ->
  (forall e x, (Some e, x) ∈ bound (join_nodes s h) ->
     exists d, (e, d) ∈ node_elements s /\ data_id d = data_id x) /\
  (forall x, x ∈ descendants h ->
     data_id x ∈ data_id <$> descendants h_old ->
     exists e, (Some e, x) ∈ bound (join_nodes s h)) /\
  (forall x, (None, x) ∈ bound (join_nodes s h) <->
     x ∈ descendants h /\ data_id x ∉ data_id <$> descendants h_old) /\
  exiting (join_nodes s h)
    = filter (fun p => data_id (snd p) ∉ data_id <$> descendants h)
             (node_elements s).
Proof.
  intros Hs Hold Hnew. unfold distinct_ids in *.
  assert (Hg : NoDup ((data_id ∘ snd) <$> node_elements s)).
  { now rewrite list_fmap_compose, Hs, descendants_nodes. }
  assert (Hd : NoDup (data_id <$> descendants h))
    by now rewrite descendants_nodes.
  destruct (bindKey_by_identity data_id (node_elements s) (descendants h)
              Hg Hd) as (Hb & Hex & Hup & Hen).
  assert (Hkeys : (data_id ∘ snd) <$> node_elements s
                  = data_id <$> descendants h_old)
    by now rewrite list_fmap_compose, Hs.
  unfold join_nodes. split; [exact Hup|]. split; [|split; [|exact Hex]].
  - intros x Hx Hid. rewrite <- Hkeys in Hid.
    apply list_elem_of_fmap in Hid as ([e d] & Eid & Hp). cbn in Eid.
    exists e. rewrite Hb. apply list_elem_of_fmap. exists x.
    split; [|exact Hx]. f_equal. symmetry.
    apply (element_of_spec data_id _ e _ Hg). now exists d.
  - intros x. rewrite Hen, Hkeys. reflexivity.
Qed.

Lemma nodes_join_by_identity_witness :
  exists e, (Some e, mkHNode "A" (Some 1) (Fin (1 # 2)) (Some (Fin (300 # 2))) [])
            ∈ bound (join_nodes (scene_of drawn_before)
                       (default (mkHNode "" None NaN None [])
                          (hierarchy drawn_after))).
Proof.
  destruct (nodes_join_by_identity (scene_of drawn_before)
              (default (mkHNode "" None NaN None []) (hierarchy drawn_before))
              (default (mkHNode "" None NaN None []) (hierarchy drawn_after)))
    as (_ & H & _).
  - reflexivity.
  - apply (bool_decide_unpack _). now vm_compute.
  - apply (bool_decide_unpack _). now vm_compute.
  - apply H.
    + vm_compute. do 2 right. left.
    + vm_compute. right. left.
Defined.

Lemma omap_enters {D : Type} (l : list D) :
  omap (fun p : option nat * D =>
          match fst p with None => Some (snd p) | Some _ => None end)
       (pair None <$> l) = l.
Proof.
  induction l as [|x l IH]; [reflexivity|].
  rewrite fmap_cons. cbn [omap list_omap fst snd]. now f_equal.
Qed.

Lemma omap_no_updates {D : Type} (l : list D) :
  omap (fun p : option nat * D =>
          match fst p with Some e => Some (e, snd p) | None => None end)
       (pair None <$> l) = [].
Proof.
  induction l as [|x l IH]; [reflexivity|].
  rewrite fmap_cons. cbn [omap list_omap fst snd]. exact IH.
Qed.

Lemma bindIndex_rest {D : Type} (g : group D) : forall data : list D,
  entering (bindIndex g data) = drop (length g) data /\
  updating (bindIndex g data)
    = zip (fst <$> g) (take (length g) data) /\
  exiting (bindIndex g data) = drop (length data) g.
Proof.
  unfold entering, updating.
  induction g as [|[e d] g IH]; intros data.
  - change (bindIndex [] data) with (mkJoined (pair None <$> data) (@nil (nat * D))).
    cbn [bound exiting]. rewrite omap_enters, omap_no_updates.
    split; [reflexivity|]. split; [reflexivity|]. now rewrite drop_nil.
  - destruct data as [|x data]; [now repeat split|].
    destruct (IH data) as (He & Hu & Hx).
    cbn [bindIndex bound exiting length drop take omap list_omap fst snd].
    rewrite fmap_cons. cbn [fst zip zip_with].
    split; [exact He|]. split; [now f_equal | exact Hx].
Qed.

(** X5. The links join goes by position. The i-th element of the links
    group is bound to the i-th link of the new hierarchy, whatever node
    either belongs to; the links past the last element enter, and the
    elements past the last link exit. *)
Theorem links_join_by_position (s : Scene) (h : HNode) :
  (forall i e d x,
     link_elements s !! i = Some (e, d) -> links h !! i = Some x ->
     bound (join_links s h) !! i = Some (Some e, x)) /\
  entering (join_links s h) = drop (length (link_elements s)) (links h) /\
  updating (join_links s h)
    = zip (fst <$> link_elements s)
          (take (length (link_elements s)) (links h)) /\
  exiting (join_links s h) = drop (length (links h)) (link_elements s).
Proof.
  unfold join_links. split.
  - intros i e d x. apply bindIndex_by_position.
  - apply bindIndex_rest.
Qed.

Lemma bindData_empty {D : Type} (key : D -> string) (data : list D) :
  bindData key data ∅ = (pair None <$> data, ∅).
Proof.
  induction data as [|x data IH]; [reflexivity|].
  cbn [bindData]. rewrite lookup_empty, IH. reflexivity.
Qed.

Lemma place_enters {D : Type} (data : list D) : forall n,
  place (pair None <$> data) n
  = (zip (seq n (length data)) data, (n + length data)%nat).
Proof.
  induction data as [|x data IH]; intros n.
  - cbn. f_equal. lia.
  - rewrite fmap_cons. cbn [place]. rewrite IH.
    cbn [length seq zip zip_with]. f_equal. lia.
Qed.

(** X6. On an empty scene [redraw] has every link and every node enter and
    nothing update or exit: the links get new elements first, the nodes
    after them. *)
Theorem first_redraw_enters_everything (s : Scene) (h : HNode) :
  link_elements s = [] -> node_elements s = [] ->
  entering (join_links s h) = links h /\
  entering (join_nodes s h) = descendants h /\
  updating (join_links s h) = [] /\ updating (join_nodes s h) = [] /\
  exiting (join_links s h) = [] /\ exiting (join_nodes s h) = [] /\
  link_elements (rejoin s h)
    = zip (seq (fresh s) (length (links h))) (links h) /\
  node_elements (rejoin s h)
    = zip (seq (fresh s + length (links h)) (length (descendants h)))
          (descendants h).
Proof.
  intros Hl Hn.
  assert (Ebl : bound (join_links s h) = pair None <$> links h).
  { unfold join_links. now rewrite Hl. }
  assert (Ebn : bound (join_nodes s h) = pair None <$> descendants h).
  { unfold join_nodes, bindKey. rewrite Hn. cbn [fileElements].
    now rewrite bindData_empty. }
  unfold entering, updating.
  rewrite Ebl, Ebn, !omap_enters, !omap_no_updates.
  split; [reflexivity|]. split; [reflexivity|].
  split; [reflexivity|]. split; [reflexivity|].
  split; [unfold join_links; now rewrite Hl|].
  split.
  { unfold join_nodes, bindKey. rewrite Hn. cbn [fileElements].
    now rewrite bindData_empty. }
  unfold rejoin. rewrite Ebl, place_enters, Ebn, place_enters.
  split; reflexivity.
Qed.

Lemma first_redraw_enters_everything_witness :
  entering (join_nodes (mkScene [] [] 0)
              (mkHNode "R" None (Fin 0) None
                 [mkHNode "A" None (Fin 0) None []]))
  = [mkHNode "R" None (Fin 0) None [mkHNode "A" None (Fin 0) None []];
     mkHNode "A" None (Fin 0) None []].
Proof.
  apply (first_redraw_enters_everything (mkScene [] [] 0)); reflexivity.
Defined.

Lemma links_join_by_position_witness :
  bound (join_links (scene_of drawn_before)
           (default (mkHNode "" None NaN None []) (hierarchy drawn_after)))
    !! 0%nat
  = Some (Some 0%nat,
          mkLink (default (mkHNode "" None NaN None []) (hierarchy drawn_after))
                 (mkHNode "N" (Some 1) (Fin (1 # 2)) (Some (Fin (300 # 2))) [])).
Proof.
  eapply (proj1 (links_join_by_position (scene_of drawn_before)
                   (default (mkHNode "" None NaN None [])
                      (hierarchy drawn_after)))); reflexivity.
Defined.

(** ** Registering and removing handlers *)

Lemma fold_insert_lookup {A : Type} (v : A) (parts : list string) :
  forall (ev : gmap string A) (name : string),
    fold_left (fun ev n => <[n := v]> ev) parts ev !! name
    = if bool_decide (name ∈ parts) then Some v else ev !! name.
Proof.
  induction parts as [|p parts IH]; intros ev name.
  - cbn [fold_left]. case_bool_decide as H; [|reflexivity].
    now apply not_elem_of_nil in H.
  - cbn [fold_left]. rewrite IH.
    destruct (decide (name = p)) as [->|Hne].
    + rewrite (bool_decide_eq_true_2 (p ∈ p :: parts))
        by apply list_elem_of_here.
      case_bool_decide; [reflexivity | apply lookup_insert_eq].
    + rewrite (bool_decide_cons_ne _ _ _ Hne).
      case_bool_decide; [reflexivity|].
      now rewrite lookup_insert_ne by congruence.
Qed.

(** No part that [split] cuts at spaces has a space in it. *)
Lemma split_parts_spaceless (s : string) :
  Forall (fun p => spaceless p = true) (split " " s).
Proof.
  induction s as [|c s IH]; cbn [split].
  - now repeat constructor.
  - destruct (Ascii.eqb c " ") eqn:Ec.
    + constructor; [reflexivity | exact IH].
    + destruct (split " " s) as [|w ws].
      * repeat constructor. cbn [spaceless]. now rewrite Ec.
      * inversion IH as [|? ? Hw Hws]; subst. constructor; [|exact Hws].
        cbn [spaceless]. now rewrite Ec, Hw.
Qed.

(** X7. [on] registers the callback under every part of its
    space-delimited argument and under nothing else: [trigger] on a part
    then returns what the callback returns on the array of the arguments,
    and every other name keeps the handler it had, or none. *)
Theorem on_registers_parts (names : string) (callback : list jsval -> jsval)
    (name : string) (args : list jsval) (t : TidyTree) :
  snd (on names callback t) = Returned tt /\
  (name ∈ split " " names ->
   events (fst (on names callback t)) !! name = Some callback /\
   trigger name args (fst (on names callback t))
   = (fst (on names callback t), Returned (callback args))) /\
  (name ∉ split " " names ->
   events (fst (on names callback t)) !! name = events t !! name).
Proof.
  split; [reflexivity|].
  assert (E : events (fst (on names callback t)) !! name
              = if bool_decide (name ∈ split " " names)
                then Some callback else events t !! name).
  { unfold on, assign. cbn [fst events with_events].
    apply fold_insert_lookup. }
  split; intros Hin.
  - rewrite bool_decide_eq_true_2 in E by exact Hin. split; [exact E|].
    generalize dependent (fst (on names callback t)). intros t' E.
    unfold trigger, bind, this, ret. simpl. now rewrite E.
  - now rewrite bool_decide_eq_false_2 in E by exact Hin.
Qed.

Lemma on_registers_parts_witness :
  trigger "hidetooltip" [JString "A"]
    (fst (on "showtooltip hidetooltip" (fun a => JNumber (Fin 1)) blank))
  = (fst (on "showtooltip hidetooltip" (fun a => JNumber (Fin 1)) blank),
     Returned (JNumber (Fin 1))).
Proof.
  apply (on_registers_parts "showtooltip hidetooltip"
           (fun a => JNumber (Fin 1)) "hidetooltip" [JString "A"] blank).
  apply (bool_decide_unpack _). now vm_compute.
Defined.

(** X8. [off] leaves [nullFn] under every part of its space-delimited
    argument, registered before or not, and touches no other name: after
    it [trigger] on a part returns null instead of throwing. *)
Theorem off_silences_parts (names name : string) (args : list jsval)
    (t : TidyTree) :
  snd (off names t) = Returned tt /\
  (name ∈ split " " names ->
   events (fst (off names t)) !! name = Some nullFn /\
   trigger name args (fst (off names t))
   = (fst (off names t), Returned JNull)) /\
  (name ∉ split " " names ->
   events (fst (off names t)) !! name = events t !! name).
Proof.
  split; [reflexivity|].
  assert (E : events (fst (off names t)) !! name
              = if bool_decide (name ∈ split " " names)
                then Some nullFn else events t !! name).
  { unfold off, assign. cbn [fst events with_events].
    apply fold_insert_lookup. }
  split; intros Hin.
  - rewrite bool_decide_eq_true_2 in E by exact Hin. split; [exact E|].
    generalize dependent (fst (off names t)). intros t' E.
    unfold trigger, bind, this, ret. simpl. now rewrite E.
  - now rewrite bool_decide_eq_false_2 in E by exact Hin.
Qed.

Lemma off_silences_parts_witness :
  trigger "b" [] (fst (off "a b" blank))
  = (fst (off "a b" blank), Returned JNull).
Proof.
  apply (off_silences_parts "a b" "b" [] blank).
  apply (bool_decide_unpack _). now vm_compute.
Defined.

Lemma trigger_unregistered (name : string) (args : list jsval)
    (t : TidyTree) :
  events t !! name = None -> raises (trigger name args) t.
Proof.
  intros H. unfold raises, trigger, bind, this, throw. simpl. rewrite H.
  eexists. reflexivity.
Qed.

(** X9. Neither [on] nor [off] ever stores anything under a name that has
    a space in it: [trigger] on such a name finds what was there before,
    and throws if that was nothing. *)
Theorem spaced_name_never_registered (names name : string)
    (callback : list jsval -> jsval) (args : list jsval) (t : TidyTree) :
  spaceless name = false ->
  events (fst (on names callback t)) !! name = events t !! name /\
  events (fst (off names t)) !! name = events t !! name /\
  (events t !! name = None ->
   raises (trigger name args) (fst (on names callback t)) /\
   raises (trigger name args) (fst (off names t))).
Proof.
  intros Hs.
  assert (Hnot : name ∉ split " " names).
  { intros Hin. pose proof (split_parts_spaceless names) as Hall.
    rewrite Forall_forall in Hall. specialize (Hall name Hin). congruence. }
  destruct (on_registers_parts names callback name args t) as (_ & _ & Hon).
  destruct (off_silences_parts names name args t) as (_ & _ & Hoff).
  specialize (Hon Hnot). specialize (Hoff Hnot).
  split; [exact Hon|]. split; [exact Hoff|].
  intros Hnone.
  split; apply trigger_unregistered; congruence.
Qed.

Lemma spaced_name_never_registered_witness :
  raises (trigger "show tooltip" [])
         (fst (on "show tooltip" (fun _ => JNull) blank)).
Proof.
  apply (spaced_name_never_registered "show tooltip" "show tooltip"
           (fun _ => JNull) [] blank); reflexivity.
Defined.

(** ** Accepted configuration changes *)

(** What a setter does once its argument has passed the test: the field is
    assigned, and a drawn object is redrawn. *)
Lemma assign_then_redraw (f : TidyTree -> TidyTree) (t : TidyTree) :
  parent (f t) = parent t -> hierarchy (f t) = hierarchy t ->
  parent t = None \/ is_Some (hierarchy t) ->
  exists t',
    (assign f ;; t0 <- this ;;
     match parent t0 with Some _ => redraw | None => ret tt end) t
    = (t', Returned tt) /\
    layout t' = layout (f t) /\ type t' = type (f t) /\
    mode t' = mode (f t) /\ data t' = data (f t) /\
    range t' = range (f t) /\ events t' = events (f t) /\
    margin t' = margin (f t) /\
    (parent t = None -> t' = f t).
Proof.
  intros Hp Hh Hok. unfold bind, assign, this. cbn [fst snd].
  destruct (parent (f t)) as [c|] eqn:Ep.
  - destruct Hok as [Hnone | [h Hsome]]; [congruence|].
    rewrite <- Hh in Hsome. rewrite (redraw_drawn (f t) c h Ep Hsome).
    eexists. split; [reflexivity|].
    repeat (split; [reflexivity|]). intros Hnone. congruence.
  - exists (f t). split; [reflexivity|]. now repeat split.
Qed.

(** X10. On an object that is not drawn, or that has its hierarchy, each of
    [setLayout], [setType] and [setMode] throws exactly when the name is
    outside its valid set; a valid name is stored in its field, the call
    returns, and the other two fields, the data, the range and the handlers
    stay as they were. *)
Theorem setters_accept_valid_names (name : string) (t : TidyTree) :
  parent t = None \/ is_Some (hierarchy t) ->
  (raises (setLayout name) t <-> name ∉ validLayouts) /\
  (raises (setType name) t <-> name ∉ validTypes) /\
  (raises (setMode name) t <-> name ∉ validModes) /\
  (name ∈ validLayouts ->
   snd (setLayout name t) = Returned tt /\
   layout (fst (setLayout name t)) = name /\
   type (fst (setLayout name t)) = type t /\
   mode (fst (setLayout name t)) = mode t /\
   data (fst (setLayout name t)) = data t /\
   range (fst (setLayout name t)) = range t /\
   events (fst (setLayout name t)) = events t) /\
  (name ∈ validTypes ->
   snd (setType name t) = Returned tt /\
   type (fst (setType name t)) = name /\
   layout (fst (setType name t)) = layout t /\
   mode (fst (setType name t)) = mode t /\
   data (fst (setType name t)) = data t /\
   range (fst (setType name t)) = range t /\
   events (fst (setType name t)) = events t) /\
  (name ∈ validModes ->
   snd (setMode name t) = Returned tt /\
   mode (fst (setMode name t)) = name /\
   layout (fst (setMode name t)) = layout t /\
   type (fst (setMode name t)) = type t /\
   data (fst (setMode name t)) = data t /\
   range (fst (setMode name t)) = range t /\
   events (fst (setMode name t)) = events t).
Proof.
  intros Hok.
  destruct (assign_then_redraw (with_layout name) t eq_refl eq_refl Hok)
    as (tl & El & Hl).
  destruct (assign_then_redraw (with_type name) t eq_refl eq_refl Hok)
    as (tt' & Et & Ht).
  destruct (assign_then_redraw (with_mode name) t eq_refl eq_refl Hok)
    as (tm & Em & Hm).
  assert (Hlay : includes validLayouts name = true ->
                 setLayout name t = (tl, Returned tt)).
  { intros E. unfold setLayout. rewrite E. exact El. }
  assert (Htyp : includes validTypes name = true ->
                 setType name t = (tt', Returned tt)).
  { intros E. unfold setType. rewrite E. exact Et. }
  assert (Hmod : includes validModes name = true ->
                 setMode name t = (tm, Returned tt)).
  { intros E. unfold setMode. rewrite E. exact Em. }
  assert (Hraise : forall (l : list string) (m : M unit) (t' : TidyTree)
                     (msg : string),
            (includes l name = true -> m t = (t', Returned tt)) ->
            (includes l name = false -> m t = (t, Thrown msg)) ->
            raises m t <-> name ∉ l).
  { intros l m t' msg Hyes Hno. rewrite <- includes_spec. unfold raises.
    destruct (includes l name) eqn:E.
    - rewrite (Hyes eq_refl). split; [intros [e He]; discriminate | congruence].
    - rewrite (Hno eq_refl). split; [congruence | intros _; now eexists]. }
  split; [|split; [|split; [|split; [|split]]]].
  - apply (Hraise _ _ tl "Cannot set TidyTree to layout:" Hlay).
    intros E. unfold setLayout. now rewrite E.
  - apply (Hraise _ _ tt' "Cannot set TidyTree to type:" Htyp).
    intros E. unfold setType. now rewrite E.
  - apply (Hraise _ _ tm "Cannot set TidyTree to mode:" Hmod).
    intros E. unfold setMode. now rewrite E.
  - intros Hin. apply includes_spec in Hin. rewrite (Hlay Hin). cbn [fst snd].
    destruct Hl as (H1 & H2 & H3 & H4 & H5 & H6 & _). now repeat split.
  - intros Hin. apply includes_spec in Hin. rewrite (Htyp Hin). cbn [fst snd].
    destruct Ht as (H1 & H2 & H3 & H4 & H5 & H6 & _). now repeat split.
  - intros Hin. apply includes_spec in Hin. rewrite (Hmod Hin). cbn [fst snd].
    destruct Hm as (H1 & H2 & H3 & H4 & H5 & H6 & _). now repeat split.
Qed.

Lemma setters_accept_valid_names_witness :
  snd (setLayout "circular" sample) = Returned tt /\
  layout (fst (setLayout "circular" sample)) = "circular" /\
  scalar (fst (setLayout "circular" sample)) = Some (Qmin 500 300 / 2).
Proof.
  destruct (setters_accept_valid_names "circular" sample)
    as (_ & _ & _ & H & _).
  - right. now eexists.
  - destruct H as (H1 & H2 & _).
    + apply (bool_decide_unpack _). now vm_compute.
    + split; [exact H1|]. split; [exact H2 | reflexivity].
Defined.

(** ** The range *)

Lemma visit_lower (po : option Q) (l : option Q) (lo hi : Q) :
  let c := default 0 po + length_or_0 l in
  exists lo1 hi1,
    visit (Fin <$> po) l (Fin lo, Fin hi) = (Fin c, (Fin lo1, Fin hi1)) /\
    lo1 <= lo /\ lo1 <= c /\ (lo1 = lo \/ lo1 = c).
Proof.
  intros c. unfold visit.
  assert (Ev : nadd (match Fin <$> po with Some pv => pv | None => Fin 0 end)
                    (Fin (length_or_0 l)) = Fin c) by (destruct po; reflexivity).
  rewrite Ev. cbn [fst snd]. unfold ngt.
  destruct (nlt (Fin c) (Fin lo)) eqn:E; simpl in E.
  - apply Qltb_lt in E. exists c.
    exists (if nlt (Fin hi) (Fin c) then c else hi). repeat split.
    + now destruct (nlt (Fin hi) (Fin c)).
    + now apply Qlt_le_weak.
    + apply Qle_refl.
    + now right.
  - apply Qltb_ge in E. exists lo.
    exists (if nlt (Fin hi) (Fin c) then c else hi). repeat split.
    + now destruct (nlt (Fin hi) (Fin c)).
    + apply Qle_refl.
    + exact E.
    + now left.
Qed.

Lemma eachBefore_children_lower (c : Q) (cs : list Branch) :
  Forall (lower_fact (Some c)) cs ->
  forall lo hi, exists lo' hi',
    eachBefore_children (Fin c) cs (Fin lo, Fin hi)
      = (List.map (annotate Fin (fun _ => None) c) cs, (Fin lo', Fin hi')) /\
    lo' <= lo /\
    Forall (fun x => lo' <= x) (flat_map (computed c) cs) /\
    (lo' = lo \/ In lo' (flat_map (computed c) cs)).
Proof.
  induction 1 as [|b cs Hb _ IH]; intros lo hi; simpl.
  - exists lo, hi. repeat split; [apply Qle_refl | constructor | now left].
  - destruct (Hb lo hi) as (lo1 & hi1 & E1 & Hle1 & Hall1 & Hin1).
    simpl in E1. rewrite E1.
    destruct (IH lo1 hi1) as (lo2 & hi2 & E2 & Hle2 & Hall2 & Hin2).
    rewrite E2. exists lo2, hi2. repeat split.
    + now apply Qle_trans with lo1.
    + apply Forall_app. split; [|exact Hall2].
      eapply Forall_impl; [exact Hall1|].
      intros x Hx. simpl in Hx. now apply Qle_trans with lo1.
    + destruct Hin2 as [-> | Hin2].
      * destruct Hin1 as [-> | Hin1]; [now left|].
        right. apply in_app_iff. now left.
      * right. apply in_app_iff. now right.
Qed.

Lemma eachBefore_lower (b : Branch) : forall po, lower_fact po b.
Proof.
  induction b as [i l cs IH] using Branch_ind. intros po lo hi.
  rewrite eachBefore_unfold.
  destruct (visit_lower po l lo hi) as (lo1 & hi1 & Ev & Hle1 & Hc1 & Hor1).
  rewrite Ev.
  assert (IH' : Forall (lower_fact (Some (default 0 po + length_or_0 l))) cs).
  { eapply Forall_impl; [exact IH|]. intros b Hb. apply Hb. }
  destruct (eachBefore_children_lower _ cs IH' lo1 hi1)
    as (lo2 & hi2 & Ec & Hle2 & Hall2 & Hin2).
  rewrite Ec. exists lo2, hi2. simpl. repeat split.
  - now apply Qle_trans with lo1.
  - constructor; [now apply Qle_trans with lo1 | exact Hall2].
  - destruct Hin2 as [-> | Hin2].
    + destruct Hor1 as [-> | ->]; [now left | right; now left].
    + right. now right.
Qed.



(** Both ends of the range that [setData] leaves, against the values
    computed. *)
Lemma setData_range (b : Branch) (t : TidyTree) :
  exists lo hi,
    range (fst (setData (Some b) t)) = Some (Fin lo, Fin hi) /\
    Forall (fun c => lo <= c /\ c <= hi) (computed 0 b) /\
    (lo = MAX_SAFE_INTEGER \/ In lo (computed 0 b)) /\
    (hi = MIN_SAFE_INTEGER \/ In hi (computed 0 b)).
Proof.
  destruct (eachBefore_closed b None MAX_SAFE_INTEGER MIN_SAFE_INTEGER)
    as (lo & hi & E & _ & Hall & Hin).
  destruct (eachBefore_lower b None MAX_SAFE_INTEGER MIN_SAFE_INTEGER)
    as (lo' & hi' & E' & _ & Hall' & Hin').
  rewrite E in E'. injection E' as <- <-.
  exists lo, hi.
  assert (Er : fst (buildHierarchy b) = (Fin lo, Fin hi)).
  { unfold buildHierarchy. simpl in E. now rewrite E. }
  split.
  - rewrite setData_unfold, Er. destruct (parent t) as [c|] eqn:Ep.
    + erewrite redraw_drawn; [reflexivity | exact Ep | reflexivity].
    + reflexivity.
  - split; [|split; assumption].
    rewrite List.Forall_forall in Hall, Hall'. apply List.Forall_forall.
    intros x Hx. split; [now apply Hall' | now apply Hall].
Qed.










(** ** More on the generators *)

Module GeometryMore.
Import Geometry PathReading.
Local Open Scope R_scope.

Lemma get_is_Some {A : Type} (o : object A) (k : string) :
  is_Some (get o k) <-> k ∈ fst <$> o.
Proof.
  induction o as [|[k' v] o IH]; cbn [get].
  - split; [intros [x Hx]; discriminate | intros H; inversion H].
  - rewrite fmap_cons, elem_of_cons. cbn [fst].
    destruct (String.eqb k k') eqn:E.
    + apply String.eqb_eq in E. split; [now left | now eexists].
    + apply String.eqb_neq in E. rewrite IH. tauto.
Qed.

Lemma get_three {A : Type} (k1 k2 k3 : string) (v1 v2 v3 : A) (k : string) :
  get [(k1, v1); (k2, v2); (k3, v3)] k
  = if String.eqb k k1 then Some v1
    else if String.eqb k k2 then Some v2
    else if String.eqb k k3 then Some v3 else None.
Proof. reflexivity. Qed.

Lemma in_three (k k1 k2 k3 : string) :
  k ∈ [k1; k2; k3] <-> k = k1 \/ k = k2 \/ k = k3.
Proof.
  rewrite !elem_of_cons. split; [|tauto].
  intros [H | [H | [H | H]]]; try tauto. inversion H.
Qed.

Section Tables.
Variables linkHorizontal linkVertical linkRadial :
  (Node -> R) -> (Node -> R) -> Link -> text.

Let linkTransformers :=
  Geometry.linkTransformers linkHorizontal linkVertical linkRadial.

(** X12. The three tables hold a generator for exactly the valid
    configurations: a link and a label generator for every type, mode and
    layout of the valid sets and for no other triple, a node generator for
    every valid type and layout and for no other pair. *)
Theorem tables_cover_valid_configurations (type mode layout : string) :
  (is_Some (get3 linkTransformers type mode layout) <->
   type ∈ validTypes /\ mode ∈ validModes /\ layout ∈ validLayouts) /\
  (is_Some (get3 labelTransformers type mode layout) <->
   type ∈ validTypes /\ mode ∈ validModes /\ layout ∈ validLayouts) /\
  (is_Some (get2 nodeTransformers type layout) <->
   type ∈ validTypes /\ layout ∈ validLayouts).
Proof.
  unfold validTypes, validModes, validLayouts. rewrite !in_three.
  unfold get3, get2, linkTransformers, Geometry.linkTransformers,
    labelTransformers, nodeTransformers.
  rewrite !get_three.
  split; [|split].
  - destruct (String.eqb type "tree") eqn:E1;
      [|destruct (String.eqb type "weighted") eqn:E2;
        [|destruct (String.eqb type "dendrogram") eqn:E3]];
      cbn [mbind option_bind];
      unfold linkTransformers_tree, linkTransformers_weighted;
      rewrite ?get_three;
      try (destruct (String.eqb mode "smooth") eqn:M1;
           [|destruct (String.eqb mode "straight") eqn:M2;
             [|destruct (String.eqb mode "square") eqn:M3]]);
      cbn [mbind option_bind]; rewrite ?get_three;
      try (destruct (String.eqb layout "horizontal") eqn:L1;
           [|destruct (String.eqb layout "vertical") eqn:L2;
             [|destruct (String.eqb layout "circular") eqn:L3]]);
      rewrite ?String.eqb_eq, ?String.eqb_neq in *;
      (split; [intros [f Hf]; try discriminate; tauto
              | intros H; try (now eexists); exfalso; tauto]).
  - destruct (String.eqb type "tree") eqn:E1;
      [|destruct (String.eqb type "weighted") eqn:E2;
        [|destruct (String.eqb type "dendrogram") eqn:E3]];
      cbn [mbind option_bind];
      unfold labelTransformers_tree, labelTransformers_weighted;
      rewrite ?get_three;
      try (destruct (String.eqb mode "straight") eqn:M1;
           [|destruct (String.eqb mode "square") eqn:M2;
             [|destruct (String.eqb mode "smooth") eqn:M3]]);
      cbn [mbind option_bind];
      unfold labelTransformers_tree_straight, labelTransformers_tree_square,
        labelTransformers_weighted_straight,
        labelTransformers_weighted_square;
      rewrite ?get_three;
      try (destruct (String.eqb layout "horizontal") eqn:L1;
           [|destruct (String.eqb layout "vertical") eqn:L2;
             [|destruct (String.eqb layout "circular") eqn:L3]]);
      rewrite ?String.eqb_eq, ?String.eqb_neq in *;
      (split; [intros [f Hf]; try discriminate; tauto
              | intros H; try (now eexists); exfalso; tauto]).
  - destruct (String.eqb type "tree") eqn:E1;
      [|destruct (String.eqb type "weighted") eqn:E2;
        [|destruct (String.eqb type "dendrogram") eqn:E3]];
      cbn [mbind option_bind];
      unfold nodeTransformers_tree, nodeTransformers_weighted;
      rewrite ?get_three;
      try (destruct (String.eqb layout "horizontal") eqn:L1;
           [|destruct (String.eqb layout "vertical") eqn:L2;
             [|destruct (String.eqb layout "circular") eqn:L3]]);
      rewrite ?String.eqb_eq, ?String.eqb_neq in *;
      (split; [intros [f Hf]; try discriminate; tauto
              | intros H; try (now eexists); exfalso; tauto]).
Qed.

End Tables.

(** X13. [circularPoint a r] lies at distance [r] from the origin; the
    angle 0 points up the screen, a quarter turn points right, a half turn
    points down; and a full turn more gives the same point. *)
Theorem circularPoint_on_circle (a r : R) :
  (fst (circularPoint a r))² + (snd (circularPoint a r))² = r² /\
  circularPoint 0 r = (0, - r) /\
  circularPoint (PI / 2) r = (r, 0) /\
  circularPoint PI r = (0, r) /\
  circularPoint (a + 2 * PI) r = circularPoint a r.
Proof.
  unfold circularPoint. cbn [fst snd].
  split; [|split; [|split; [|split]]].
  - unfold Rsqr. pose proof (sin2_cos2 (a - PI / 2)) as H. unfold Rsqr in H.
    nra.
  - replace (0 - PI / 2) with (- (PI / 2)) by lra.
    rewrite cos_neg, sin_neg, cos_PI2, sin_PI2. f_equal; lra.
  - replace (PI / 2 - PI / 2) with 0 by lra.
    rewrite cos_0, sin_0. f_equal; lra.
  - replace (PI - PI / 2) with (PI / 2) by lra.
    rewrite cos_PI2, sin_PI2. f_equal; lra.
  - replace (a + 2 * PI - PI / 2) with (a - PI / 2 + 2 * INR 1 * PI)
      by (simpl; lra).
    now rewrite cos_period, sin_period.
Qed.

Lemma div_nonneg (a b : R) : 0 <= a -> 0 < b -> 0 <= a / b.
Proof.
  intros Ha Hb. unfold Rdiv. apply Rmult_le_pos; [exact Ha|].
  apply Rlt_le. now apply Rinv_0_lt_compat.
Qed.

Lemma trunc_nonneg (r : R) : 0 <= r -> IZR (trunc r) <= r < IZR (trunc r) + 1.
Proof.
  intros H. unfold trunc. destruct (Rle_dec 0 r) as [_|Hn]; [|contradiction].
  destruct (base_Int_part r) as [H1 H2]. lra.
Qed.

(** The remainder of a number that is not negative, by a positive
    divisor. *)
Lemma jsmod_nonneg (a b : R) : 0 <= a -> 0 < b -> 0 <= jsmod a b < b.
Proof.
  intros Ha Hb. unfold jsmod.
  assert (Hq : 0 <= a / b) by (apply div_nonneg; assumption).
  destruct (trunc_nonneg _ Hq) as [H1 H2].
  assert (E : a = a / b * b) by (field; lra).
  set (n := IZR (trunc (a / b))) in *. split.
  - assert (b * n <= a / b * b) by nra. lra.
  - assert (a / b * b < b * (n + 1)) by nra. lra.
Qed.

Lemma jsmod_small (a b : R) : 0 <= a < b -> jsmod a b = a.
Proof.
  intros [Ha Hb]. unfold jsmod.
  assert (Hq : 0 <= a / b < 1).
  { split; [apply div_nonneg; lra|].
    apply (Rmult_lt_reg_r b); [lra|].
    replace (a / b * b) with a by (field; lra). lra. }
  assert (E : trunc (a / b) = 0%Z).
  { unfold trunc. destruct (Rle_dec 0 (a / b)) as [_|Hn]; [|lra].
    symmetry. apply Int_part_spec. simpl. lra. }
  rewrite E. simpl. lra.
Qed.

(** X14. In circular layout the label of a node at an angle that is not
    negative is turned by at least -90 and less than 90 degrees, so that
    its text is never upside down. *)
Theorem circular_label_upright (l : Node) :
  0 <= x l ->
  exists r,
    transform (nodeLabels_enter "circular" l)
      = [Lit "rotate("; Num r; Lit ")"] /\
    transform (nodeLabels_update "circular" l)
      = [Lit "rotate("; Num r; Lit ")"] /\
    -90 <= r < 90.
Proof.
  intros Hx. eexists. split; [reflexivity|]. split; [reflexivity|].
  assert (Hd : 0 <= x l / PI * 180).
  { pose proof PI_RGT_0. apply Rmult_le_pos; [|lra].
    apply div_nonneg; lra. }
  destruct (jsmod_nonneg (x l / PI * 180) 180 Hd ltac:(lra)). lra.
Qed.

Lemma circular_label_upright_witness :
  exists r,
    transform (nodeLabels_enter "circular" (mkNode 1 2 3))
      = [Lit "rotate("; Num r; Lit ")"] /\ -90 <= r < 90.
Proof.
  destruct (circular_label_upright (mkNode 1 2 3)) as (r & H1 & _ & H2).
  - simpl. lra.
  - exists r. split; assumption.
Defined.

(** X15. In circular layout the label of a node on the first half turn,
    from 0 to [PI] inclusive, is anchored "start" with offset 5, and the
    label of a node strictly between [PI] and a full turn is anchored "end"
    with offset -5; on entering and on update alike. *)
Theorem circular_label_anchor_by_angle (l : Node) :
  (0 <= x l <= PI ->
   text_anchor (nodeLabels_enter "circular" l) = "start" /\
   x_offset (nodeLabels_enter "circular" l) = 5 /\
   text_anchor (nodeLabels_update "circular" l) = "start" /\
   x_offset (nodeLabels_update "circular" l) = 5) /\
  (PI < x l < 2 * PI ->
   text_anchor (nodeLabels_enter "circular" l) = "end" /\
   x_offset (nodeLabels_enter "circular" l) = -5 /\
   text_anchor (nodeLabels_update "circular" l) = "end" /\
   x_offset (nodeLabels_update "circular" l) = -5).
Proof.
  pose proof PI_RGT_0 as Hpi.
  unfold nodeLabels_enter, nodeLabels_update. simpl.
  split; intros Hx.
  - rewrite (jsmod_small (x l) (2 * PI)) by lra.
    destruct (Rgt_dec (x l) PI) as [H|H]; [lra|]. now repeat split.
  - rewrite (jsmod_small (x l) (2 * PI)) by lra.
    destruct (Rgt_dec (x l) PI) as [H|H]; [|lra]. now repeat split.
Qed.

Lemma circular_label_anchor_by_angle_witness :
  text_anchor (nodeLabels_enter "circular" (mkNode (PI / 2) 1 1)) = "start" /\
  text_anchor (nodeLabels_enter "circular" (mkNode (3 * PI / 2) 1 1)) = "end".
Proof.
  pose proof PI_RGT_0 as Hpi. split.
  - apply (circular_label_anchor_by_angle (mkNode (PI / 2) 1 1)). simpl. lra.
  - apply (circular_label_anchor_by_angle (mkNode (3 * PI / 2) 1 1)).
    simpl. lra.
Defined.

Section Paths.
Variables linkHorizontal linkVertical linkRadial :
  (Node -> R) -> (Node -> R) -> Link -> text.

Let linkTransformers :=
  Geometry.linkTransformers linkHorizontal linkVertical linkRadial.

(** X16. In circular layout, for a link whose parent and child have the
    same angle, the square generator gives the very path of the straight
    generator, for every type. *)
Theorem square_is_straight_on_a_ray (type : string) (d : Link) :
  type ∈ validTypes ->
  x (target d) = x (source d) ->
  exists f g,
    get3 linkTransformers type "square" "circular" = Some f /\
    get3 linkTransformers type "straight" "circular" = Some g /\
    f d = g d.
Proof.
  intros Hin Hx. apply list_elem_of_In in Hin.
  destruct Hin as [<- | [<- | [<- | []]]];
    (eexists; eexists; split; [reflexivity|]; split; [reflexivity|]);
    cbv beta zeta; rewrite !Hx;
    (destruct (Req_dec_T _ _) as [_|Hne]; [reflexivity|]);
    exfalso; apply Hne; reflexivity.
Qed.

(** X19. In horizontal and vertical layout, for every type and for the
    straight and the square mode, the path of a link starts where the node
    generator puts the parent and ends where it puts the child. *)
Theorem cartesian_links_meet_nodes (type mode layout : string) (d : Link) :
  type ∈ validTypes -> mode ∈ ["straight"; "square"] ->
  layout ∈ ["horizontal"; "vertical"] ->
  exists f g,
    get3 linkTransformers type mode layout = Some f /\
    get2 nodeTransformers type layout = Some g /\
    start_point (f d) = translation (g (source d)) /\
    end_point (f d) = translation (g (target d)) /\
    is_Some (end_point (f d)).
Proof.
  intros Ht Hm Hl. apply list_elem_of_In in Ht, Hm, Hl.
  destruct Ht as [<- | [<- | [<- | []]]];
    destruct Hm as [<- | [<- | []]];
    destruct Hl as [<- | [<- | []]];
    (eexists; eexists; split; [reflexivity|]; split; [reflexivity|]);
    (split; [reflexivity|]); (split; [reflexivity|]); now eexists.
Qed.
End Paths.

Lemma square_is_straight_on_a_ray_witness :
  exists f g,
    get3 (Geometry.linkTransformers (fun _ _ _ => []) (fun _ _ _ => [])
            (fun _ _ _ => [])) "weighted" "square" "circular" = Some f /\
    get3 (Geometry.linkTransformers (fun _ _ _ => []) (fun _ _ _ => [])
            (fun _ _ _ => [])) "weighted" "straight" "circular" = Some g /\
    f (mkLink (mkNode 1 2 3) (mkNode 1 4 5))
    = g (mkLink (mkNode 1 2 3) (mkNode 1 4 5)).
Proof.
  apply (square_is_straight_on_a_ray (fun _ _ _ => []) (fun _ _ _ => [])
           (fun _ _ _ => []) "weighted").
  - apply (bool_decide_unpack _). now vm_compute.
  - reflexivity.
Defined.

Lemma cartesian_links_meet_nodes_witness :
  exists f g,
    get3 (Geometry.linkTransformers (fun _ _ _ => []) (fun _ _ _ => [])
            (fun _ _ _ => [])) "tree" "square" "horizontal" = Some f /\
    get2 nodeTransformers "tree" "horizontal" = Some g /\
    end_point (f (mkLink (mkNode 1 2 3) (mkNode 4 5 6)))
    = translation (g (mkNode 4 5 6)).
Proof.
  destruct (cartesian_links_meet_nodes (fun _ _ _ => []) (fun _ _ _ => [])
              (fun _ _ _ => []) "tree" "square" "horizontal"
              (mkLink (mkNode 1 2 3) (mkNode 4 5 6)))
    as (f & g & Hf & Hg & _ & He & _).
  - apply (bool_decide_unpack _). now vm_compute.
  - apply (bool_decide_unpack _). now vm_compute.
  - apply (bool_decide_unpack _). now vm_compute.
  - exists f, g. split; [exact Hf|]. split; [exact Hg | exact He].
Defined.

Lemma degrees_quarter : PI / 2 * radToDeg = 90.
Proof. unfold radToDeg. field. apply GeometryFacts.PI_nonzero. Qed.

(** X17. The label of a straight or smooth link in horizontal layout, for
    every type: when parent and child are at the same depth it is turned by
    90 degrees if the child is further along the breadth, by -90 if the
    parent is, and its rotation is NaN if the two coincide; when they are
    at the same breadth and at different depths it is not turned. *)
Theorem straight_label_slopes (type mode : string) (l : Link) :
  type ∈ validTypes -> mode ∈ ["straight"; "smooth"] ->
  exists f,
    get3 labelTransformers type mode "horizontal" = Some f /\
    take 5 (f l)
    = [Lit "translate(";
       Num ((radius type (source l) + radius type (target l)) / 2);
       Lit ", "; Num ((x (source l) + x (target l)) / 2); Lit ") rotate("] /\
    (radius type (target l) = radius type (source l) ->
     (x (source l) < x (target l) -> drop 5 (f l) = [Num 90; Lit ")"]) /\
     (x (target l) < x (source l) -> drop 5 (f l) = [Num (-90); Lit ")"]) /\
     (x (target l) = x (source l) -> drop 5 (f l) = [Lit "NaN"; Lit ")"])) /\
    (radius type (target l) <> radius type (source l) ->
     x (target l) = x (source l) -> drop 5 (f l) = [Num 0; Lit ")"]).
Proof.
  intros Ht Hm. apply list_elem_of_In in Ht, Hm.
  destruct Ht as [<- | [<- | [<- | []]]];
    destruct Hm as [<- | [<- | []]];
    (eexists; split; [reflexivity|]); (split; [reflexivity|]);
    unfold radius; cbn [String.eqb Ascii.eqb Bool.eqb drop];
    unfold atan_quotient, degrees; split.
  all: try (intros Hr; rewrite Hr, Rminus_diag;
            destruct (Req_dec_T 0 0) as [_|Hn]; [|contradiction];
            split; [|split]; intros Hx;
            [ destruct (Req_dec_T _ 0) as [E|_]; [lra|];
              destruct (Rlt_dec 0 _) as [_|Hn]; [|lra];
              now rewrite degrees_quarter
            | destruct (Req_dec_T _ 0) as [E|_]; [lra|];
              destruct (Rlt_dec 0 _) as [Hp|_]; [lra|];
              do 2 f_equal; pose proof degrees_quarter; nra
            | rewrite Hx, Rminus_diag;
              destruct (Req_dec_T 0 0) as [_|Hn]; [reflexivity|contradiction] ]).
  all: intros Hr Hx; rewrite Hx, Rminus_diag;
    (destruct (Req_dec_T _ 0) as [E|_]; [exfalso; apply Hr; lra|]);
    unfold Rdiv; rewrite Rmult_0_l, atan_0, Rmult_0_l; reflexivity.
Qed.

Lemma straight_label_slopes_witness :
  exists f,
    get3 labelTransformers "tree" "straight" "horizontal" = Some f /\
    drop 5 (f (mkLink (mkNode 1 2 0) (mkNode 3 2 0))) = [Num 90; Lit ")"].
Proof.
  destruct (straight_label_slopes "tree" "straight"
              (mkLink (mkNode 1 2 0) (mkNode 3 2 0)))
    as (f & Hf & _ & H & _).
  - apply (bool_decide_unpack _). now vm_compute.
  - apply (bool_decide_unpack _). now vm_compute.
  - exists f. split; [exact Hf|]. apply H; simpl; [reflexivity | lra].
Defined.

(** X18. In circular layout the label of a square link is turned by the
    angle by which the label of the link's child node is turned, for every
    type. *)
Theorem square_label_turns_with_node (type : string) (l : Link) :
  type ∈ validTypes ->
  exists f r,
    get3 labelTransformers type "square" "circular" = Some f /\
    drop 4 (f l) = [Lit ") rotate("; Num r; Lit ")"] /\
    transform (nodeLabels_enter "circular" (target l))
      = [Lit "rotate("; Num r; Lit ")"] /\
    transform (nodeLabels_update "circular" (target l))
      = [Lit "rotate("; Num r; Lit ")"].
Proof.
  intros Ht. apply list_elem_of_In in Ht.
  assert (E : x (target l) / PI * 180 = x (target l) * radToDeg).
  { unfold radToDeg. field. apply GeometryFacts.PI_nonzero. }
  destruct Ht as [<- | [<- | [<- | []]]];
    (eexists; eexists; split; [reflexivity|]);
    (split; [reflexivity|]);
    unfold nodeLabels_enter, nodeLabels_update;
    cbn [String.eqb Ascii.eqb Bool.eqb transform]; rewrite E; now split.
Qed.

Lemma square_label_turns_with_node_witness :
  exists f r,
    get3 labelTransformers "tree" "square" "circular" = Some f /\
    drop 4 (f (mkLink (mkNode 1 2 0) (mkNode 3 2 0)))
      = [Lit ") rotate("; Num r; Lit ")"] /\
    transform (nodeLabels_enter "circular" (mkNode 3 2 0))
      = [Lit "rotate("; Num r; Lit ")"].
Proof.
  destruct (square_label_turns_with_node "tree"
              (mkLink (mkNode 1 2 0) (mkNode 3 2 0)))
    as (f & r & Hf & Hd & Hn & _).
  - apply (bool_decide_unpack _). now vm_compute.
  - exists f, r. split; [exact Hf|]. split; [exact Hd | exact Hn].
Defined.

End GeometryMore.

(** ** The ruler *)

Lemma weights_annotate val wt (b : Branch) : forall pv,
  List.map weight (nodes (annotate val wt pv b)) = List.map wt (computed pv b).
Proof.
  induction b as [i l cs IH] using Branch_ind. intros pv.
  simpl. f_equal.
  generalize (pv + length_or_0 l). intros c.
  induction IH as [|b cs Hb _ IHcs]; simpl; [reflexivity|].
  rewrite !List.map_app. now rewrite Hb, IHcs.
Qed.

(** X20. On a drawn object that has its data, [updateRuler] returns, and
    it shows the ruler (opacity 1, with an axis drawn) exactly when the
    ruler is enabled, the layout is not circular and the type is tree or
    weighted; in every other case, the type dendrogram among them, the
    opacity is 0 and the axis drawn before is left as it was. *)
Theorem ruler_shown_iff (show : bool) (transform : option Q) (t : TidyTree)
    (r : Ruler) :
  is_Some (parent t) -> is_Some (hierarchy t) -> is_Some (range t) ->
  snd (updateRuler show transform t r) = Returned tt /\
  (ruler_opacity (fst (updateRuler show transform t r)) = 1 <->
   show = true /\ layout t <> "circular" /\
   (type t = "tree" \/ type t = "weighted")) /\
  (ruler_opacity (fst (updateRuler show transform t r)) = 1 ->
   is_Some (ruler_axis (fst (updateRuler show transform t r)))) /\
  (ruler_opacity (fst (updateRuler show transform t r)) <> 1 ->
   ruler_opacity (fst (updateRuler show transform t r)) = 0 /\
   ruler_axis (fst (updateRuler show transform t r)) = ruler_axis r).
Proof.
  intros [c Hp] [h Hh] [[lo hi] Hr]. unfold updateRuler. rewrite Hp, Hh, Hr.
  destruct show; cbn [fst snd].
  - destruct (String.eqb (type t) "tree") eqn:Et;
      destruct (String.eqb (type t) "weighted") eqn:Ew;
      destruct (String.eqb (layout t) "circular") eqn:El;
      cbn [andb negb fst snd ruler_opacity ruler_axis];
      rewrite ?String.eqb_eq, ?String.eqb_neq in *;
      (split; [reflexivity|]);
      (split; [split; [intros H; try discriminate; tauto
                      | intros (_ & H1 & H2); try reflexivity;
                        exfalso; tauto]|]);
      (split; [intros H; try discriminate; now eexists|]);
      intros H; try (now split); exfalso; now apply H.
  - split; [reflexivity|].
    split; [split; [intros H; discriminate | intros (H & _); discriminate]|].
    split; [intros H; discriminate|]. intros _. now split.
Qed.

Lemma ruler_shown_iff_witness :
  ruler_opacity
    (fst (updateRuler true None
            (fst (setType "dendrogram" sample)) (mkRuler (NaN, NaN) 1 None)))
  = 0.
Proof.
  refine (proj1 (proj2 (proj2 (proj2
            (ruler_shown_iff true None (fst (setType "dendrogram" sample))
               (mkRuler (NaN, NaN) 1 None) _ _ _))) _)).
  - vm_compute. now eexists.
  - vm_compute. now eexists.
  - vm_compute. now eexists.
  - vm_compute. discriminate.
Defined.

(** X21. The ruler agrees with the nodes. After [setData] on a drawn,
    weighted object in a layout that is not circular, with a tree whose
    root has no distance, whose distances are not negative and one of which
    is positive, [updateRuler] at the zoom factor [k] draws an axis whose
    range is 0 to the pixel budget and whose domain is 0 to the greatest
    cumulative distance divided by [k]; the line through those ends sends
    the cumulative distance of every node to [k] times the node's weight,
    which is where the zoom puts the node. *)
Theorem ruler_matches_weights (b : Branch) (t : TidyTree) (k : Q) (r : Ruler) :
  is_Some (parent t) -> type t = "weighted" -> layout t <> "circular" ->
  distance b == 0 -> nonnegative b ->
  Exists (fun c => 0 < distance c) (branches b) ->
  0 < k ->
  exists h tr axis d0 d1 s,
    hierarchy (fst (setData (Some b) t)) = Some h /\
    scalar (fst (setData (Some b) t)) = Some s /\
    updateRuler true (Some k) (fst (setData (Some b) t)) r
    = (mkRuler tr 1 (Some (axis, mkScale (Fin d0, Fin d1) (Fin 0, Fin s))),
       Returned tt) /\
    d0 == 0 /\ max_cumulative_is b (d1 * k) /\
    Forall2 (fun d c =>
               exists w, weight d = Some (Fin w) /\
                         line_through d0 d1 0 s c == k * w)
            (nodes h) (cumulative_distances 0 b).
Proof.
  intros [c Hp] Hty Hlay Hroot Hn Hex Hk.
  destruct (setData_closed b t)
    as (lo & hi & wt & _ & Hrange & Hh & Hall & Hin & Hw).
  destruct (Hw c Hp) as [Hs ->].
  destruct (positive_maximum b hi Hn Hex Hall Hin) as [Hpos Hmem].
  destruct (setData_range b t) as (lo' & hi' & Hrange' & Hboth & Hlo & _).
  rewrite Hrange in Hrange'. injection Hrange' as <- <-.
  assert (Hlo0 : lo == 0).
  { destruct (computed_head 0 b) as [rest Eh].
    assert (H0 : In (0 + length_or_0 (branch_length b)) (computed 0 b))
      by (rewrite Eh; now left).
    rewrite List.Forall_forall in Hboth.
    assert (Hle : lo <= 0).
    { apply Qle_trans with (0 + length_or_0 (branch_length b));
        [apply (Hboth _ H0)|].
      rewrite (length_or_0_distance b), Hroot. now vm_compute. }
    destruct Hlo as [-> | Hlin]; [exfalso; revert Hle; now vm_compute|].
    apply Qle_antisym; [exact Hle|].
    pose proof (computed_lower b 0 Hn) as Hge.
    rewrite List.Forall_forall in Hge. now apply Hge. }
  assert (Hk0 : ~ k == 0).
  { intros E. rewrite E in Hk. exact (Qlt_irrefl 0 Hk). }
  assert (Hhi0 : ~ hi == 0).
  { intros E. rewrite E in Hpos. exact (Qlt_irrefl 0 Hpos). }
  set (t' := fst (setData (Some b) t)) in *.
  assert (Hp' : is_Some (parent t')).
  { unfold t'. rewrite setData_unfold, Hp.
    erewrite redraw_drawn; [now eexists | exact Hp | reflexivity]. }
  assert (Hty' : type t' = "weighted").
  { unfold t'. rewrite setData_unfold, Hp.
    erewrite redraw_drawn; [exact Hty | exact Hp | reflexivity]. }
  assert (Hlay' : layout t' = layout t).
  { unfold t'. rewrite setData_unfold, Hp.
    erewrite redraw_drawn; [reflexivity | exact Hp | reflexivity]. }
  destruct Hp' as [c' Hp'].
  eexists. eexists. eexists. exists lo, (hi / k). eexists.
  split; [exact Hh|]. split; [exact Hs|].
  split; [|split; [exact Hlo0|split]].
  - unfold updateRuler. rewrite Hp', Hty', Hlay', Hrange, Hs.
    assert (El : String.eqb (layout t) "circular" = false)
      by now apply String.eqb_neq.
    rewrite El. cbn [String.eqb Ascii.eqb Bool.eqb andb negb or_NaN].
    unfold ndiv. replace (Qeqb0 k) with false
      by (symmetry; now apply Qeqb0_false).
    reflexivity.
  - apply max_cumulative_computed.
    assert (E : hi / k * k == hi) by (field; exact Hk0).
    split.
    + eapply Forall_impl; [exact Hall|]. intros x Hx. simpl in Hx.
      now rewrite E.
    + apply List.Exists_exists. exists hi. split; [exact Hmem|].
      now rewrite E.
  - match type of Hs with _ = Some ?s => set (s0 := s) in * end.
    eapply (map_Forall2 weight
              (fun x => Some (nmul (Fin s0) (normalized hi x))) Qeq);
      [| | apply computed_cumulative; reflexivity].
    + intros d x cum E Hxc. rewrite E, (normalized_positive _ _ Hpos).
      eexists. split; [reflexivity|].
      unfold line_through. rewrite Hlo0, <- Hxc. field. split; assumption.
    + apply weights_annotate.
Qed.

Lemma ruler_matches_weights_witness :
  exists h tr axis d0 d1 s,
    hierarchy (fst (setData (Some sample_tree) (with_type "weighted" blank)))
    = Some h /\
    scalar (fst (setData (Some sample_tree) (with_type "weighted" blank)))
    = Some s /\
    updateRuler true (Some 2)
      (fst (setData (Some sample_tree) (with_type "weighted" blank)))
      (mkRuler (NaN, NaN) 0 None)
    = (mkRuler tr 1 (Some (axis, mkScale (Fin d0, Fin d1) (Fin 0, Fin s))),
       Returned tt) /\
    d0 == 0 /\ max_cumulative_is sample_tree (d1 * 2) /\
    Forall2 (fun d c =>
               exists w, weight d = Some (Fin w) /\
                         line_through d0 d1 0 s c == 2 * w)
            (nodes h) (cumulative_distances 0 sample_tree).
Proof.
  apply (ruler_matches_weights sample_tree (with_type "weighted" blank) 2
           (mkRuler (NaN, NaN) 0 None)).
  - now eexists.
  - reflexivity.
  - intros H. discriminate H.
  - reflexivity.
  - unfold nonnegative. simpl. repeat constructor; now vm_compute.
  - simpl. right. left. reflexivity.
  - reflexivity.
Defined.
